(** * Rules engine of the chess front end

    A shallow embedding of [src/utils/chess-logic.ts] (the position model,
    the move-legality evaluator, check and checkmate detection, the
    move-notation formatter) and of the game-state coordinator of the
    [ChessGame] component ([handleSquareClick], the status effect and
    [resetGame]), followed by the properties established about them.

    Conventions of the embedding:
    - a coordinate is an integer ([Z]); a square is the pair [(x, y)] =
      (file, rank), exactly the [[number, number]] tuples of the source;
    - a board is an array of rows, each an array of cells: [list (list _)].
      A cell holds [Some piece] or [None]; [None] stands for both [null] and
      [undefined], which the source never tells apart (it only tests
      truthiness);
    - reading [board[y][x]] when [board[y]] is [undefined] throws a
      [TypeError] in JavaScript; reading past the end of an existing row
      yields [undefined].  Both are written out in [cell];
    - the [while] loop of [isPathClear] has no bound of its own: it runs on a
      budget of iterations and answers [Diverge] when the budget is spent. *)

From Stdlib Require Import ZArith List String Ascii Bool Lia DecimalString Sorted.
Import ListNotations.
Open Scope Z_scope.

(** ** Outcomes of a computation *)

Inductive outcome (A : Type) : Type :=
| Ret (a : A)      (* normal completion with a value *)
| TypeError        (* the exception raised by indexing [undefined] *)
| Diverge.         (* the iteration budget of a loop ran out *)

Arguments Ret {A} a.
Arguments TypeError {A}.
Arguments Diverge {A}.

Definition bind {A B : Type} (m : outcome A) (k : A -> outcome B) : outcome B :=
  match m with
  | Ret a => k a
  | TypeError => TypeError
  | Diverge => Diverge
  end.

Notation "x <- m ;; k" := (bind m (fun x => k))
  (at level 61, m at next level, right associativity).

(** [for (...) { s = f(s, a) }] over the values [l], threading [s]. *)
Fixpoint foldM {A S : Type} (f : S -> A -> outcome S) (l : list A) (s : S)
  : outcome S :=
  match l with
  | [] => Ret s
  | a :: l' => s' <- f s a ;; foldM f l' s'
  end.

(** [for (...) { if (f(a)) return true }; return false]. *)
Fixpoint anyM {A : Type} (f : A -> outcome bool) (l : list A) : outcome bool :=
  match l with
  | [] => Ret false
  | a :: l' => b <- f a ;; if b then Ret true else anyM f l'
  end.

(** [for (...) { if (...) return v }; return null]. *)
Fixpoint findM {A B : Type} (f : A -> outcome (option B)) (l : list A)
  : outcome (option B) :=
  match l with
  | [] => Ret None
  | a :: l' =>
      r <- f a ;;
      match r with
      | Some b => Ret (Some b)
      | None => findM f l'
      end
  end.

(** The index values of [for (let i = 0; i < 8; i++)]. *)
Definition range8 : list Z := [0; 1; 2; 3; 4; 5; 6; 7].

(** ** Position model *)

Inductive PieceType : Type := pawn | rook | knight | bishop | queen | king.
Inductive PieceColor : Type := white | black.

Definition Square : Type := (Z * Z)%type.

Record ChessPiece : Type := mkPiece {
  type : PieceType;
  color : PieceColor;
  position : Square;
  hasMoved : option bool;      (* optional field: absent until the first move *)
  id : string
}.

Definition Board : Type := list (list (option ChessPiece)).

Inductive GameStatus : Type := playing | check | checkmate | stalemate.

Record GameState : Type := mkState {
  board : Board;
  currentPlayer : PieceColor;
  selectedPiece : option Square;
  validMoves : list Square;
  gameStatus : GameStatus;
  capturedPieces : list ChessPiece;
  moveHistory : list string
}.

Definition PieceType_eqb (a b : PieceType) : bool :=
  match a, b with
  | pawn, pawn | rook, rook | knight, knight
  | bishop, bishop | queen, queen | king, king => true
  | _, _ => false
  end.

Definition PieceColor_eqb (a b : PieceColor) : bool :=
  match a, b with
  | white, white | black, black => true
  | _, _ => false
  end.

Definition GameStatus_eqb (a b : GameStatus) : bool :=
  match a, b with
  | playing, playing | check, check
  | checkmate, checkmate | stalemate, stalemate => true
  | _, _ => false
  end.

(** *** Arrays *)

(** [arr[i]]: [None] is JavaScript's [undefined] (no such element). *)
Definition index {A : Type} (arr : list A) (i : Z) : option A :=
  if i <? 0 then None else nth_error arr (Z.to_nat i).

(** [arr[i] = v].  Inside the array the element is replaced; past its end
    the array is extended, the gap filled with [hole]s.  A negative [i]
    creates a property that is not an element: the elements are unchanged
    (the engine never writes there: every written index has first been
    read as a piece or comes from the 0..7 loops). *)
Definition store {A : Type} (hole : A) (arr : list A) (i : Z) (v : A) : list A :=
  if i <? 0 then arr
  else
    let n := Z.to_nat i in
    if (n <? List.length arr)%nat
    then firstn n arr ++ v :: skipn (S n) arr
    else arr ++ repeat hole (n - List.length arr) ++ [v].

(** [board[y][x]] *)
Definition cell (board : Board) (x y : Z) : outcome (option ChessPiece) :=
  match index board y with
  | None => TypeError
  | Some row =>
      match index row x with
      | Some c => Ret c
      | None => Ret None
      end
  end.

(** [board[y][x] = v] on a board whose rows are private copies. *)
Definition setCell (board : Board) (x y : Z) (v : option ChessPiece)
  : outcome Board :=
  match index board y with
  | None => TypeError
  | Some row => Ret (store [] board y (store None row x v))
  end.

(** Truthiness of a cell. *)
Definition truthy (c : option ChessPiece) : bool :=
  match c with Some _ => true | None => false end.

Definition piece_on (t : PieceType) (c : PieceColor) (x y : Z) (i : string)
  : option ChessPiece :=
  Some (mkPiece t c (x, y) None i).

Definition initialBoard : Board :=
  [ (* Black pieces (row 0) *)
    [ piece_on rook black 0 0 "br1"; piece_on knight black 1 0 "bn1";
      piece_on bishop black 2 0 "bb1"; piece_on queen black 3 0 "bq";
      piece_on king black 4 0 "bk"; piece_on bishop black 5 0 "bb2";
      piece_on knight black 6 0 "bn2"; piece_on rook black 7 0 "br2" ];
    (* Black pawns (row 1) *)
    [ piece_on pawn black 0 1 "bp1"; piece_on pawn black 1 1 "bp2";
      piece_on pawn black 2 1 "bp3"; piece_on pawn black 3 1 "bp4";
      piece_on pawn black 4 1 "bp5"; piece_on pawn black 5 1 "bp6";
      piece_on pawn black 6 1 "bp7"; piece_on pawn black 7 1 "bp8" ];
    (* Empty rows (2-5) *)
    [None; None; None; None; None; None; None; None];
    [None; None; None; None; None; None; None; None];
    [None; None; None; None; None; None; None; None];
    [None; None; None; None; None; None; None; None];
    (* White pawns (row 6) *)
    [ piece_on pawn white 0 6 "wp1"; piece_on pawn white 1 6 "wp2";
      piece_on pawn white 2 6 "wp3"; piece_on pawn white 3 6 "wp4";
      piece_on pawn white 4 6 "wp5"; piece_on pawn white 5 6 "wp6";
      piece_on pawn white 6 6 "wp7"; piece_on pawn white 7 6 "wp8" ];
    (* White pieces (row 7) *)
    [ piece_on rook white 0 7 "wr1"; piece_on knight white 1 7 "wn1";
      piece_on bishop white 2 7 "wb1"; piece_on queen white 3 7 "wq";
      piece_on king white 4 7 "wk"; piece_on bishop white 5 7 "wb2";
      piece_on knight white 6 7 "wn2"; piece_on rook white 7 7 "wr2" ] ].

(** ** Move legality evaluator *)

(** The body of [isPathClear]'s [while (x !== toX || y !== toY)] loop, run
    for at most [fuel] evaluations of its condition. *)
Fixpoint isPathClear_loop (fuel : nat) (board : Board)
  (x y dx dy toX toY : Z) : outcome bool :=
  match fuel with
  | O => Diverge
  | S fuel' =>
      if negb (x =? toX) || negb (y =? toY) then
        c <- cell board x y ;;
        if truthy c then Ret false
        else isPathClear_loop fuel' board (x + dx) (y + dy) dx dy toX toY
      else Ret true
  end.

Definition isPathClear (fuel : nat) (board : Board) (from to : Square)
  : outcome bool :=
  let '(fromX, fromY) := from in
  let '(toX, toY) := to in
  let dx := Z.sgn (toX - fromX) in
  let dy := Z.sgn (toY - fromY) in
  isPathClear_loop fuel board (fromX + dx) (fromY + dy) dx dy toX toY.

(** [piece.color === "white" ? -1 : 1] *)
Definition pawnDirection (clr : PieceColor) : Z :=
  match clr with white => -1 | black => 1 end.

(** [piece.color === "white" ? 6 : 1] *)
Definition pawnStartRow (clr : PieceColor) : Z :=
  match clr with white => 6 | black => 1 end.

(** [isValidMove], with the path helper it calls left as a parameter. *)
Definition isValidMove_with
  (pathClear : Board -> Square -> Square -> outcome bool)
  (board : Board) (from to : Square) (piece : ChessPiece) : outcome bool :=
  let '(fromX, fromY) := from in
  let '(toX, toY) := to in
  let dx := toX - fromX in
  let dy := toY - fromY in
  targetPiece <- cell board toX toY ;;
  (* Can't move to same square *)
  if (fromX =? toX) && (fromY =? toY) then Ret false
  (* Can't capture own piece *)
  else if match targetPiece with
          | Some t => PieceColor_eqb (color t) (color piece)
          | None => false
          end then Ret false
  else
    match type piece with
    | pawn =>
        let direction := pawnDirection (color piece) in
        let startRow := pawnStartRow (color piece) in
        if dx =? 0 then
          if (dy =? direction) && negb (truthy targetPiece) then Ret true
          else if (fromY =? startRow) && (dy =? 2 * direction)
                  && negb (truthy targetPiece) then Ret true
          else Ret false
        else if (Z.abs dx =? 1) && (dy =? direction) && truthy targetPiece
        then Ret true
        else Ret false
    | rook =>
        if (dx =? 0) || (dy =? 0) then pathClear board from to
        else Ret false
    | knight =>
        Ret (((Z.abs dx =? 2) && (Z.abs dy =? 1))
             || ((Z.abs dx =? 1) && (Z.abs dy =? 2)))
    | bishop =>
        if Z.abs dx =? Z.abs dy then pathClear board from to
        else Ret false
    | queen =>
        if (dx =? 0) || (dy =? 0) || (Z.abs dx =? Z.abs dy)
        then pathClear board from to
        else Ret false
    | king =>
        Ret ((Z.abs dx <=? 1) && (Z.abs dy <=? 1))
    end.

(** The number of unit steps between two squares on a common rank, file or
    diagonal. *)
Definition distance (from to : Square) : Z :=
  Z.max (Z.abs (fst to - fst from)) (Z.abs (snd to - snd from)).

(** Iteration budget handed to the walk: one more than the distance (shown
    below never to be exhausted on the calls [isValidMove] makes). *)
Definition walkBudget (from to : Square) : nat := S (Z.to_nat (distance from to)).

Definition isValidMove (board : Board) (from to : Square) (piece : ChessPiece)
  : outcome bool :=
  isValidMove_with (fun b f t => isPathClear (walkBudget f t) b f t)
                   board from to piece.

(** ** Attack/check detector *)

Definition isKingOf (clr : PieceColor) (c : option ChessPiece) : bool :=
  match c with
  | Some piece => PieceType_eqb (type piece) king && PieceColor_eqb (color piece) clr
  | None => false
  end.

Definition findKing (board : Board) (clr : PieceColor) : outcome (option Square) :=
  findM (fun y =>
    findM (fun x =>
      piece <- cell board x y ;;
      if isKingOf clr piece then Ret (Some (x, y)) else Ret None)
      range8)
    range8.

Definition opponent (clr : PieceColor) : PieceColor :=
  match clr with white => black | black => white end.

Definition isInCheck (board : Board) (clr : PieceColor) : outcome bool :=
  kingPos <- findKing board clr ;;
  match kingPos with
  | None => Ret false
  | Some kingPos =>
      let opponentColor := opponent clr in
      (* Check if any opponent piece can attack the king *)
      anyM (fun y =>
        anyM (fun x =>
          piece <- cell board x y ;;
          match piece with
          | Some piece =>
              if PieceColor_eqb (color piece) opponentColor
              then isValidMove board (x, y) kingPos piece
              else Ret false
          | None => Ret false
          end)
          range8)
        range8
  end.

(** ** Legal-move generator *)

(** [board.map((row) => [...row])] builds fresh rows with the same cells, so
    the writes below never reach the caller's board; in this pure embedding
    the copy is the board value itself. *)
Definition wouldBeInCheck (board : Board) (from to : Square) (clr : PieceColor)
  : outcome bool :=
  let newBoard := board in
  piece <- cell newBoard (fst from) (snd from) ;;
  newBoard <- setCell newBoard (fst to) (snd to) piece ;;
  newBoard <- setCell newBoard (fst from) (snd from) None ;;
  isInCheck newBoard clr.

Definition getValidMoves (board : Board) (position : Square)
  : outcome (list Square) :=
  piece <- cell board (fst position) (snd position) ;;
  match piece with
  | None => Ret []
  | Some piece =>
      foldM (fun validMoves x =>
        foldM (fun validMoves y =>
          ok <- isValidMove board position (x, y) piece ;;
          if ok then
            (* Check if this move would put own king in check *)
            inCheck <- wouldBeInCheck board position (x, y) (color piece) ;;
            if negb inCheck then Ret (validMoves ++ [(x, y)])
            else Ret validMoves
          else Ret validMoves)
          range8 validMoves)
        range8 []
  end.

(** ** Game-status evaluator *)

Definition isCheckmate (board : Board) (clr : PieceColor) : outcome bool :=
  inCheck <- isInCheck board clr ;;
  if negb inCheck then Ret false
  else
    (* Check if any piece can make a valid move *)
    canMove <-
      anyM (fun y =>
        anyM (fun x =>
          piece <- cell board x y ;;
          match piece with
          | Some piece =>
              if PieceColor_eqb (color piece) clr then
                validMoves <- getValidMoves board (x, y) ;;
                Ret (0 <? List.length validMoves)%nat
              else Ret false
          | None => Ret false
          end)
          range8)
        range8 ;;
    Ret (negb canMove).

(** ** Move-history formatter *)

Open Scope string_scope.

Definition files : list string := ["a"; "b"; "c"; "d"; "e"; "f"; "g"; "h"].

(** How a template literal renders an array element that may be missing. *)
Definition showElement (e : option string) : string :=
  match e with Some s => s | None => "undefined" end.

(** How a template literal renders an integer. *)
Definition showNumber (n : Z) : string := NilZero.string_of_int (Z.to_int n).

Definition typeName (t : PieceType) : string :=
  match t with
  | pawn => "pawn" | rook => "rook" | knight => "knight"
  | bishop => "bishop" | queen => "queen" | king => "king"
  end.

Definition charAt0 (s : string) : string :=
  match s with
  | EmptyString => ""
  | String c _ => String c ""
  end.

Definition upperAscii (c : ascii) : ascii :=
  let n := nat_of_ascii c in
  if ((97 <=? n) && (n <=? 122))%nat then ascii_of_nat (n - 32) else c.

Fixpoint toUpperCase (s : string) : string :=
  match s with
  | EmptyString => ""
  | String c s' => String (upperAscii c) (toUpperCase s')
  end.

Definition formatMove (from to : Square) (piece : ChessPiece)
  (captured : option ChessPiece) : string :=
  let fromSquare := showElement (index files (fst from)) ++ showNumber (8 - snd from) in
  let toSquare := showElement (index files (fst to)) ++ showNumber (8 - snd to) in
  let pieceSymbol :=
    if PieceType_eqb (type piece) pawn then ""
    else toUpperCase (charAt0 (typeName (type piece))) in
  let captureSymbol := if truthy captured then "x" else "" in
  pieceSymbol ++ captureSymbol ++ toSquare.

Close Scope string_scope.

(** ** Game-state coordinator *)

Definition initialState : GameState :=
  mkState initialBoard white None [] playing [] [].

(** The status computed by the effect that follows a change of
    [board] or [currentPlayer]. *)
Definition newStatus (board : Board) (player : PieceColor) : outcome GameStatus :=
  inCheck <- isInCheck board player ;;
  inCheckmate <- isCheckmate board player ;;
  Ret (if inCheckmate then checkmate
       else if inCheck then check
       else playing).

Definition useEffect_status (st : GameState) : outcome GameState :=
  status <- newStatus (board st) (currentPlayer st) ;;
  if negb (GameStatus_eqb status (gameStatus st))
  then Ret (mkState (board st) (currentPlayer st) (selectedPiece st)
                    (validMoves st) status (capturedPieces st) (moveHistory st))
  else Ret st.

(** [{ ...prevState, selectedPiece: [x, y], validMoves: getValidMoves(...) }] *)
Definition select (prevState : GameState) (x y : Z) : outcome GameState :=
  moves <- getValidMoves (board prevState) (x, y) ;;
  Ret (mkState (board prevState) (currentPlayer prevState) (Some (x, y)) moves
               (gameStatus prevState) (capturedPieces prevState)
               (moveHistory prevState)).

(** [{ ...prevState, selectedPiece: null, validMoves: [] }] *)
Definition deselect (prevState : GameState) : GameState :=
  mkState (board prevState) (currentPlayer prevState) None []
          (gameStatus prevState) (capturedPieces prevState)
          (moveHistory prevState).

(** The tail of the handler, reached when the activated square is not an
    accepted move. *)
Definition reselect (prevState : GameState) (piece : option ChessPiece)
  (x y : Z) : outcome GameState :=
  match piece with
  | Some p =>
      (* If clicking on another piece of the same color *)
      if PieceColor_eqb (color p) (currentPlayer prevState)
      then select prevState x y
      else Ret (deselect prevState)
  | None => Ret (deselect prevState)
  end.

(** [handleSquareClick]: the state after the event.  The animation
    bookkeeping ([setAnimatingPieces], [setTimeout]) touches no field of
    [GameState] and is left out. *)
Definition handleSquareClick (gameState : GameState) (x y : Z)
  : outcome GameState :=
  if GameStatus_eqb (gameStatus gameState) checkmate then Ret gameState
  else
    let prevState := gameState in
    piece <- cell (board prevState) x y ;;
    match selectedPiece prevState with
    | None =>
        (* If no piece is selected *)
        match piece with
        | Some p =>
            if PieceColor_eqb (color p) (currentPlayer prevState)
            then select prevState x y
            else Ret prevState
        | None => Ret prevState
        end
    | Some (selX, selY) =>
        (* If clicking on the same piece, deselect *)
        if (selX =? x) && (selY =? y) then Ret (deselect prevState)
        else
          (* If clicking on a valid move *)
          let isValid :=
            existsb (fun m => (fst m =? x) && (snd m =? y)) (validMoves prevState) in
          if isValid then
            let newBoard := board prevState in
            movingPiece <- cell newBoard selX selY ;;
            capturedPiece <- cell newBoard x y ;;
            match movingPiece with
            | Some movingPiece =>
                (* Move the piece *)
                newBoard <- setCell newBoard x y
                  (Some (mkPiece (type movingPiece) (color movingPiece) (x, y)
                                 (Some true) (id movingPiece))) ;;
                newBoard <- setCell newBoard selX selY None ;;
                (* Add to move history *)
                let moveNotation :=
                  formatMove (selX, selY) (x, y) movingPiece capturedPiece in
                let newMoveHistory := moveHistory prevState ++ [moveNotation] in
                (* Add captured piece *)
                let newCapturedPieces :=
                  match capturedPiece with
                  | Some c => capturedPieces prevState ++ [c]
                  | None => capturedPieces prevState
                  end in
                Ret (mkState newBoard (opponent (currentPlayer prevState)) None []
                             (gameStatus prevState) newCapturedPieces
                             newMoveHistory)
            | None => reselect prevState piece x y
            end
          else reselect prevState piece x y
    end.

Definition resetGame (gameState : GameState) : GameState :=
  mkState initialBoard white None [] playing [] [].

(** One event as the component processes it: the click handler, then the
    status effect, which React re-runs only when [board] or [currentPlayer]
    changed.  The handler changes either of them only on an accepted move, and
    then it always flips [currentPlayer]. *)
Definition activateSquare (st : GameState) (sq : Square) : outcome GameState :=
  st' <- handleSquareClick st (fst sq) (snd sq) ;;
  if PieceColor_eqb (currentPlayer st') (currentPlayer st) then Ret st'
  else useEffect_status st'.

(** A sequence of square activations. *)
Definition activateAll (st : GameState) (clicks : list Square) : outcome GameState :=
  foldM activateSquare clicks st.

(** ** Specification-side definitions *)

Open Scope string_scope.

(** The notation as the specification words it: a prefix letter per piece
    type, the capture marker, the destination's file letter and rank
    number.  The origin square is not an input. *)
Definition spec_piecePrefix (t : PieceType) : string :=
  match t with
  | pawn => ""
  | rook => "R"
  | knight => "K"
  | bishop => "B"
  | queen => "Q"
  | king => "K"
  end.

Definition spec_fileLetter (file : Z) : string :=
  String (ascii_of_nat (nat_of_ascii "a" + Z.to_nat file)) "".

Definition spec_squareName (sq : Square) : string :=
  spec_fileLetter (fst sq) ++ showNumber (8 - snd sq).

Definition spec_formatMove (to : Square) (t : PieceType) (isCapture : bool)
  : string :=
  spec_piecePrefix t ++ (if isCapture then "x" else "") ++ spec_squareName to.

Close Scope string_scope.

(** A board that has its eight rank rows, whatever their contents. *)
Definition hasRanks (board : Board) : Prop := (8 <= List.length board)%nat.

Definition onBoard (sq : Square) : Prop :=
  0 <= fst sq <= 7 /\ 0 <= snd sq <= 7.

(** A board of eight rows of eight cells. *)
Definition grid8 (board : Board) : Prop :=
  List.length board = 8%nat /\ Forall (fun row => List.length row = 8%nat) board.

(** What the specification asks of the entry point: every activation at a
    coordinate outside 0..7 ends in an error. *)
Definition rejectsOutOfRange : Prop :=
  forall st x y, grid8 (board st) -> ~ onBoard (x, y) ->
    forall st', handleSquareClick st x y <> Ret st'.

(** Squares on a common file, rank or diagonal. *)
Definition aligned (from to : Square) : Prop :=
  fst to - fst from = 0 \/ snd to - snd from = 0
  \/ Z.abs (fst to - fst from) = Z.abs (snd to - snd from).

(** The square [isPathClear] inspects after [i] unit steps from [from]:
    [x] and [y] start at [from + (dx, dy)] and advance by [(dx, dy)]. *)
Definition walkPos (from to : Square) (i : Z) : Square :=
  (fst from + i * Z.sgn (fst to - fst from),
   snd from + i * Z.sgn (snd to - snd from)).

(** The order in which [getValidMoves] visits the squares: by file, and by
    rank within a file. *)
Definition fileMajor (a b : Square) : Prop :=
  fst a < fst b \/ (fst a = fst b /\ snd a < snd b).

(** The order the specification names: by rank, and by file within a rank. *)
Definition rankMajor (a b : Square) : Prop :=
  snd a < snd b \/ (snd a = snd b /\ fst a < fst b).

(** The board [wouldBeInCheck] examines: the piece standing on [from] put
    on [to], and [from] cleared. *)
Definition movedBoard (board : Board) (from to : Square) : outcome Board :=
  piece <- cell board (fst from) (snd from) ;;
  newBoard <- setCell board (fst to) (snd to) piece ;;
  setCell newBoard (fst from) (snd from) None.

(** The test a square passes to enter the result of [getValidMoves]. *)
Definition legalDestination (board : Board) (position : Square)
  (piece : ChessPiece) (sq : Square) : bool :=
  match isValidMove board position sq piece with
  | Ret true =>
      match wouldBeInCheck board position sq (color piece) with
      | Ret false => true
      | _ => false
      end
  | _ => false
  end.

(** The squares in the order [getValidMoves] visits them. *)
Definition scanOrder : list Square :=
  flat_map (fun x => map (fun y => (x, y)) range8) range8.

Definition fileMajorb (a b : Square) : bool :=
  (fst a <? fst b) || ((fst a =? fst b) && (snd a <? snd b)).

Fixpoint sortedb (l : list Square) : bool :=
  match l with
  | [] => true
  | a :: l' => forallb (fileMajorb a) l' && sortedb l'
  end.

(** ** Presentation helpers of the component *)

(** [arr.slice(-n)]: the last [n] elements, all of them when there are
    fewer. *)
Definition sliceLast {A : Type} (n : nat) (arr : list A) : list A :=
  skipn (List.length arr - n) arr.

(** [arr.map((a, index) => f(a, index))], [index] counting from its
    argument. *)
Fixpoint mapIndexed {A B : Type} (f : A -> Z -> B) (arr : list A) (index : Z)
  : list B :=
  match arr with
  | [] => []
  | a :: arr' => f a index :: mapIndexed f arr' (index + 1)
  end.

(** The lines of the move-history panel:
    [moveHistory.slice(-10).map((move, index) => ...)], each rendering
    [{Math.floor(index / 2) + 1}. {move}]. *)
Definition moveHistoryLines (moveHistory : list string) : list string :=
  mapIndexed
    (fun move index => (showNumber (index / 2 + 1) ++ ". " ++ move)%string)
    (sliceLast 10 moveHistory) 0.

(** [ChessBoard]: [(row + col) % 2 === 0]. *)
Definition isLight (row col : Z) : bool := Z.rem (row + col) 2 =? 0.

(** ** Predicates used in the statements *)

(** The geometry [isValidMove] accepts for the pieces that use the path
    helper. *)
Definition slides (t : PieceType) (from to : Square) : Prop :=
  let dx := fst to - fst from in
  let dy := snd to - snd from in
  match t with
  | rook => dx = 0 \/ dy = 0
  | bishop => Z.abs dx = Z.abs dy
  | queen => dx = 0 \/ dy = 0 \/ Z.abs dx = Z.abs dy
  | _ => False
  end.

(** Every square strictly between [from] and [to] reads as empty. *)
Definition pathEmpty (board : Board) (from to : Square) : Prop :=
  forall i, 1 <= i < distance from to ->
    cell board (fst (walkPos from to i)) (snd (walkPos from to i)) = Ret None.

(** The cell does not hold a piece of [piece]'s color. *)
Definition notOwn (piece : ChessPiece) (target : option ChessPiece) : Prop :=
  forall t, target = Some t -> color t <> color piece.

(** States the component can be in: those some sequence of square
    activations leads to from the initial state. *)
Definition reachable (st : GameState) : Prop :=
  exists clicks, activateAll initialState clicks = Ret st.

(** [validMoves] is what [getValidMoves] gives for the selection, which
    holds a piece of the player to move; without a selection it is empty. *)
Definition selectionConsistent (st : GameState) : Prop :=
  match selectedPiece st with
  | None => validMoves st = []
  | Some sq =>
      (exists piece, cell (board st) (fst sq) (snd sq) = Ret (Some piece)
                     /\ color piece = currentPlayer st)
      /\ getValidMoves (board st) sq = Ret (validMoves st)
  end.

(** The piece an accepted move puts on the destination:
    [{ ...movingPiece, position: [x, y], hasMoved: true }]. *)
Definition movedPiece (movingPiece : ChessPiece) (x y : Z) : ChessPiece :=
  mkPiece (type movingPiece) (color movingPiece) (x, y) (Some true)
          (id movingPiece).

(** [st'] is [st] after the move of the selected piece to [(x, y)] has been
    accepted. *)
Definition acceptedMove (st : GameState) (x y : Z) (st' : GameState) : Prop :=
  exists sel moving captured b1 b2,
    selectedPiece st = Some sel
    /\ sel <> (x, y)
    /\ In (x, y) (validMoves st)
    /\ cell (board st) (fst sel) (snd sel) = Ret (Some moving)
    /\ cell (board st) x y = Ret captured
    /\ setCell (board st) x y (Some (movedPiece moving x y)) = Ret b1
    /\ setCell b1 (fst sel) (snd sel) None = Ret b2
    /\ st' = mkState b2 (opponent (currentPlayer st)) None []
                     (gameStatus st)
                     (match captured with
                      | Some c => capturedPieces st ++ [c]
                      | None => capturedPieces st
                      end)
                     (moveHistory st ++ [formatMove sel (x, y) moving captured]).

(** 1 for an occupied cell, 0 for an empty one. *)
Definition occupied (c : option ChessPiece) : nat :=
  if truthy c then 1%nat else 0%nat.

Definition countRow (row : list (option ChessPiece)) : nat :=
  List.length (filter truthy row).

(** The number of pieces standing on the board. *)
Definition countPieces (board : Board) : nat :=
  list_sum (map countRow board).

(** Two cells hold the same kind of thing: both nothing, or pieces of one
    type and color (their [position], [hasMoved] and [id] may differ). *)
Definition sameKind (c c' : option ChessPiece) : Prop :=
  match c, c' with
  | None, None => True
  | Some p, Some p' => type p = type p' /\ color p = color p'
  | _, _ => False
  end.

(** Two boards read alike: every [board[y][x]] throws on both, or yields
    cells of the same kind. *)
Definition cellsAlike (b b' : Board) : Prop :=
  forall x y,
    (cell b x y = TypeError /\ cell b' x y = TypeError)
    \/ (exists c c', cell b x y = Ret c /\ cell b' x y = Ret c'
                     /\ sameKind c c').

(** What every reachable state satisfies (shown below): the board is 8x8,
    the selection and [validMoves] agree, the status is the one the effect
    computes from the board and the player to move, white is to move exactly
    after an even number of logged moves, and the pieces on the board and
    the captured ones add up to 32. *)
Definition sessionInvariant (st : GameState) : Prop :=
  grid8 (board st)
  /\ selectionConsistent st
  /\ newStatus (board st) (currentPlayer st) = Ret (gameStatus st)
  /\ (currentPlayer st = white <->
      Nat.even (List.length (moveHistory st)) = true)
  /\ (countPieces (board st) + List.length (capturedPieces st) = 32)%nat.

(** ** Sample positions *)

Definition emptyRow : list (option ChessPiece) :=
  [None; None; None; None; None; None; None; None].

Definition emptyBoard : Board :=
  [emptyRow; emptyRow; emptyRow; emptyRow; emptyRow; emptyRow; emptyRow; emptyRow].

(** Put a piece on the square its [position] names. *)
Definition put (p : ChessPiece) (b : Board) : Board :=
  store [] b (snd (position p))
        (store None (nth (Z.to_nat (snd (position p))) b [])
               (fst (position p)) (Some p)).

(** The opening position with a black knight in front of white's e-pawn. *)
Definition blockedPawnBoard : Board :=
  put (mkPiece knight black (4, 5) (Some true) "bn1") initialBoard.

(** White bishop on e2 pinned to its king on e1 by a black rook on e8. *)
Definition pinnedBoard : Board :=
  put (mkPiece king white (4, 7) None "wk")
   (put (mkPiece bishop white (4, 6) (Some true) "wb1")
    (put (mkPiece rook black (4, 0) (Some true) "br1")
     (put (mkPiece king black (0, 0) (Some true) "bk") emptyBoard))).

(** Black king on a8 with no move, not attacked: white queen b6, king h1. *)
Definition stalemateBoard : Board :=
  put (mkPiece king black (0, 0) (Some true) "bk")
   (put (mkPiece queen white (1, 2) (Some true) "wq")
    (put (mkPiece king white (7, 7) (Some true) "wk") emptyBoard)).

(** A board without a white king, a black rook bearing on e1. *)
Definition kinglessBoard : Board :=
  put (mkPiece rook black (4, 0) (Some true) "br1")
   (put (mkPiece king black (0, 0) (Some true) "bk") emptyBoard).

(** Two white kings: one on g6, one on b3. *)
Definition twoKingsBoard : Board :=
  put (mkPiece king white (6, 2) (Some true) "wk")
   (put (mkPiece king white (1, 5) (Some true) "wk2") emptyBoard).

Definition stateOr (d : GameState) (o : outcome GameState) : GameState :=
  match o with Ret st => st | _ => d end.

(** The state after 1. e4 e5. *)
Definition afterE4E5 : GameState :=
  Eval vm_compute in
    stateOr initialState
      (activateAll initialState [(4, 6); (4, 4); (4, 1); (4, 3)]).

(** After 1. e4 d5, with white's e-pawn selected: the d5 pawn can be
    taken. *)
Definition beforeCapture : GameState :=
  Eval vm_compute in
    stateOr initialState
      (activateAll initialState
         [(4, 6); (4, 4); (3, 1); (3, 3); (4, 4)]).

Definition boardOr (d : Board) (o : outcome Board) : Board :=
  match o with Ret b => b | _ => d end.

(** The position after 1. e4 e5 built with [movedBoard]: the two pawns keep
    the [position] and [hasMoved] fields they had on their starting
    squares. *)
Definition plainE4E5 : Board :=
  Eval vm_compute in
    boardOr initialBoard
      (b <- movedBoard initialBoard (4, 6) (4, 4) ;;
       movedBoard b (4, 1) (4, 3)).

(** The state after 1. f3 e5 2. g4 Qh4. *)
Definition foolsMate : GameState :=
  Eval vm_compute in
    stateOr initialState
      (activateAll initialState
         [(5, 6); (5, 5); (4, 1); (4, 3); (6, 6); (6, 4); (3, 0); (7, 4)]).

(** ** The outcome monad and the loop combinators *)

Lemma bind_Ret_inv {A B : Type} (m : outcome A) (k : A -> outcome B) (b : B) :
  bind m k = Ret b -> exists a, m = Ret a /\ k a = Ret b.
Proof.
  destruct m as [a| |]; simpl; intros H; try discriminate.
  exists a; split; [reflexivity | exact H].
Qed.

Lemma anyM_false_iff {A : Type} (f : A -> outcome bool) (l : list A) :
  anyM f l = Ret false <-> (forall a, In a l -> f a = Ret false).
Proof.
  induction l as [|a l IH]; simpl.
  - split; [intros _ a [] | reflexivity].
  - split.
    + intros H. apply bind_Ret_inv in H. destruct H as [b [Hb Hk]].
      destruct b; [discriminate|].
      intros a' [<-|Hin]; [exact Hb | apply IH; assumption].
    + intros H. rewrite (H a (or_introl eq_refl)). simpl.
      apply IH. intros a' Hin. apply H. right; exact Hin.
Qed.

Lemma anyM_true_inv {A : Type} (f : A -> outcome bool) (l : list A) :
  anyM f l = Ret true -> exists a, In a l /\ f a = Ret true.
Proof.
  induction l as [|a l IH]; simpl; [discriminate|].
  intros H. apply bind_Ret_inv in H. destruct H as [b [Hb Hk]].
  destruct b.
  - exists a; split; [left; reflexivity | exact Hb].
  - destruct (IH Hk) as [a' [Hin Ha']]. exists a'; split; [right|]; assumption.
Qed.

Lemma anyM_total {A : Type} (f : A -> outcome bool) (l : list A) :
  (forall a, In a l -> exists b, f a = Ret b) -> exists b, anyM f l = Ret b.
Proof.
  induction l as [|a l IH]; simpl; intros H.
  - exists false; reflexivity.
  - destruct (H a (or_introl eq_refl)) as [b Hb]. rewrite Hb. simpl.
    destruct b; [exists true; reflexivity|].
    apply IH. intros a' Hin. apply H. right; exact Hin.
Qed.

Lemma findM_none {A B : Type} (f : A -> outcome (option B)) (l : list A) :
  (forall a, In a l -> f a = Ret None) -> findM f l = Ret None.
Proof.
  induction l as [|a l IH]; simpl; intros H; [reflexivity|].
  rewrite (H a (or_introl eq_refl)). simpl.
  apply IH. intros a' Hin. apply H. right; exact Hin.
Qed.

Lemma findM_some_inv {A B : Type} (f : A -> outcome (option B)) (l : list A) b :
  findM f l = Ret (Some b) -> exists a, In a l /\ f a = Ret (Some b).
Proof.
  induction l as [|a l IH]; simpl; [discriminate|].
  intros H. apply bind_Ret_inv in H. destruct H as [r [Hr Hk]].
  destruct r as [b'|].
  - inversion Hk; subst. exists a; split; [left; reflexivity | exact Hr].
  - destruct (IH Hk) as [a' [Hin Ha']]. exists a'; split; [right|]; assumption.
Qed.

Lemma findM_total {A B : Type} (f : A -> outcome (option B)) (l : list A) :
  (forall a, In a l -> exists r, f a = Ret r) -> exists r, findM f l = Ret r.
Proof.
  induction l as [|a l IH]; simpl; intros H.
  - exists None; reflexivity.
  - destruct (H a (or_introl eq_refl)) as [r Hr]. rewrite Hr. simpl.
    destruct r as [b|]; [exists (Some b); reflexivity|].
    apply IH. intros a' Hin. apply H. right; exact Hin.
Qed.

Lemma foldM_total {A S : Type} (f : S -> A -> outcome S) (l : list A) :
  (forall s a, In a l -> exists s', f s a = Ret s') ->
  forall s, exists s', foldM f l s = Ret s'.
Proof.
  induction l as [|a l IH]; simpl; intros H s.
  - exists s; reflexivity.
  - destruct (H s a (or_introl eq_refl)) as [s' Hs']. rewrite Hs'. simpl.
    apply IH. intros s0 a' Hin. apply H. right; exact Hin.
Qed.

(** A loop whose every iteration appends a list that depends on the index
    only yields the concatenation of those lists. *)
Lemma foldM_appends {A B : Type} (f : list B -> A -> outcome (list B))
  (h : A -> list B) (l : list A) :
  (forall acc a r, In a l -> f acc a = Ret r -> r = acc ++ h a) ->
  forall acc r, foldM f l acc = Ret r -> r = acc ++ flat_map h l.
Proof.
  induction l as [|a l IH]; simpl; intros H acc r Hr.
  - inversion Hr. now rewrite app_nil_r.
  - apply bind_Ret_inv in Hr. destruct Hr as [acc' [Hacc' Hr]].
    apply H in Hacc'; [|left; reflexivity]. subst acc'.
    apply IH in Hr.
    + rewrite Hr. now rewrite app_assoc.
    + intros acc0 a0 r0 Hin. apply H. right; exact Hin.
Qed.

(** ** Arrays and cells *)

Lemma range8_spec (i : Z) : In i range8 <-> 0 <= i <= 7.
Proof.
  unfold range8; simpl. lia.
Qed.

Lemma index_Some_range {A : Type} (arr : list A) (i : Z) :
  0 <= i < Z.of_nat (List.length arr) -> exists a, index arr i = Some a.
Proof.
  intros H. unfold index.
  destruct (i <? 0) eqn:E; [apply Z.ltb_lt in E; lia|].
  destruct (nth_error arr (Z.to_nat i)) eqn:N; [eauto|].
  apply nth_error_None in N. lia.
Qed.

Lemma index_None_range {A : Type} (arr : list A) (i : Z) :
  ~ 0 <= i < Z.of_nat (List.length arr) -> index arr i = None.
Proof.
  intros H. unfold index.
  destruct (i <? 0) eqn:E; [reflexivity|].
  apply Z.ltb_ge in E. apply nth_error_None. lia.
Qed.

Lemma cell_total (board : Board) (x y : Z) :
  0 <= y < Z.of_nat (List.length board) -> exists c, cell board x y = Ret c.
Proof.
  intros H. unfold cell.
  destruct (index_Some_range board y H) as [row ->].
  destruct (index row x); eauto.
Qed.

Lemma cell_Ret_row (board : Board) (x y : Z) c :
  cell board x y = Ret c -> 0 <= y < Z.of_nat (List.length board).
Proof.
  unfold cell, index. intros H.
  destruct (y <? 0) eqn:E; [discriminate|].
  apply Z.ltb_ge in E.
  destruct (nth_error board (Z.to_nat y)) eqn:N; [|discriminate].
  assert (nth_error board (Z.to_nat y) <> None) as Hn by congruence.
  apply nth_error_Some in Hn. lia.
Qed.

Lemma cell_total_ranks (board : Board) (x y : Z) :
  hasRanks board -> 0 <= y <= 7 -> exists c, cell board x y = Ret c.
Proof.
  unfold hasRanks. intros H Hy. apply cell_total. lia.
Qed.

(** ** Check detection on a board without a king *)

Lemma findKing_none (board : Board) (clr : PieceColor) :
  hasRanks board ->
  (forall x y c, 0 <= x <= 7 -> 0 <= y <= 7 ->
     cell board x y = Ret c -> isKingOf clr c = false) ->
  findKing board clr = Ret None.
Proof.
  intros Hr Hk. unfold findKing.
  apply findM_none. intros y Hy. apply range8_spec in Hy.
  apply findM_none. intros x Hx. apply range8_spec in Hx.
  destruct (cell_total_ranks board x y Hr Hy) as [c Hc].
  rewrite Hc. simpl. now rewrite (Hk x y c Hx Hy Hc).
Qed.

(** C7, as stated, fails: the scan of [findKing] reads [board[y][x]] for
    every rank 0..7, so on a board array with fewer rows (here none at all,
    which holds no king) the read of the missing row throws before any
    answer is given. *)
Lemma isInCheck_short_board_throws :
  isInCheck [] white = TypeError
  /\ ~ (forall (brd : Board) (clr : PieceColor),
          (forall x y piece, cell brd x y = Ret (Some piece) ->
             ~ (type piece = king /\ color piece = clr)) ->
          isInCheck brd clr = Ret false).
Proof.
  split; [reflexivity|].
  intros H. specialize (H [] white).
  assert (isInCheck [] white = Ret false) as E.
  { apply H. intros x y piece Hc. unfold cell, index in Hc.
    destruct (y <? 0); [discriminate Hc|].
    destruct (Z.to_nat y); discriminate Hc. }
  vm_compute in E. discriminate E.
Qed.

(** C7, amended.  On a board that has its eight rank rows, however
    malformed its contents (missing cells, no king, several kings), if none
    of the 64 squares holds a king of the given color then [isInCheck]
    completes normally with [false]: no error is raised. *)
Theorem isInCheck_no_king_false (board : Board) (clr : PieceColor) :
  hasRanks board ->
  (forall x y piece, 0 <= x <= 7 -> 0 <= y <= 7 ->
     cell board x y = Ret (Some piece) ->
     ~ (type piece = king /\ color piece = clr)) ->
  findKing board clr = Ret None /\ isInCheck board clr = Ret false.
Proof.
  intros Hr Hk.
  assert (findKing board clr = Ret None) as Hf.
  { apply findKing_none; [exact Hr|].
    intros x y c Hx Hy Hc. destruct c as [p|]; [|reflexivity].
    specialize (Hk x y p Hx Hy Hc). simpl.
    destruct (type p) eqn:Et; simpl; try reflexivity.
    destruct (color p) eqn:Ec, clr; simpl; try reflexivity;
      exfalso; apply Hk; split; congruence. }
  split; [exact Hf|].
  unfold isInCheck. rewrite Hf. reflexivity.
Qed.

Lemma isInCheck_no_king_false_witness :
  findKing kinglessBoard white = Ret None
  /\ isInCheck kinglessBoard white = Ret false.
Proof.
  apply (isInCheck_no_king_false kinglessBoard white).
  - unfold hasRanks. simpl. lia.
  - intros x y piece Hx Hy.
    assert (In x range8) as Ix by (apply range8_spec; exact Hx).
    assert (In y range8) as Iy by (apply range8_spec; exact Hy).
    unfold range8 in Ix, Iy; simpl in Ix, Iy.
    repeat (destruct Ix as [<-|Ix]; [|]); try contradiction;
    repeat (destruct Iy as [<-|Iy]; [|]); try contradiction;
    vm_compute; intros H; inversion H; subst; intros [H1 H2]; discriminate.
Defined.

(** ** The pawn's double step *)

(** C4. A pawn on the starting rank of its color may advance two ranks
    whenever the destination is empty; the square it passes over, whatever
    [mid] it holds, is never consulted. *)
Theorem pawn_double_step_unchecked
  (board : Board) (fromX fromY : Z) (piece : ChessPiece)
  (mid : outcome (option ChessPiece)) :
  type piece = pawn ->
  fromY = pawnStartRow (color piece) ->
  cell board fromX (fromY + pawnDirection (color piece)) = mid ->
  cell board fromX (fromY + 2 * pawnDirection (color piece)) = Ret None ->
  isValidMove board (fromX, fromY)
              (fromX, fromY + 2 * pawnDirection (color piece)) piece = Ret true.
Proof.
  intros Ht Hy _ Hdest.
  unfold isValidMove, isValidMove_with.
  rewrite Hdest. simpl. rewrite Ht.
  replace (fromX - fromX) with 0 by lia.
  replace (fromY + 2 * pawnDirection (color piece) - fromY)
    with (2 * pawnDirection (color piece)) by lia.
  rewrite Hy.
  destruct (color piece); simpl; rewrite Z.eqb_refl; simpl; reflexivity.
Qed.

Lemma pawn_double_step_unchecked_witness :
  cell blockedPawnBoard 4 5
    = Ret (Some (mkPiece knight black (4, 5) (Some true) "bn1"))
  /\ isValidMove blockedPawnBoard (4, 6) (4, 4)
       (mkPiece pawn white (4, 6) None "wp5") = Ret true.
Proof.
  split; [reflexivity|].
  apply (pawn_double_step_unchecked blockedPawnBoard 4 6
           (mkPiece pawn white (4, 6) None "wp5")
           (Ret (Some (mkPiece knight black (4, 5) (Some true) "bn1"))));
    reflexivity.
Defined.

(** ** Move notation *)

Lemma files_letter (file : Z) :
  0 <= file <= 7 -> showElement (index files file) = spec_fileLetter file.
Proof.
  intros H.
  assert (file = 0 \/ file = 1 \/ file = 2 \/ file = 3 \/ file = 4
          \/ file = 5 \/ file = 6 \/ file = 7) as D by lia.
  repeat (destruct D as [-> | D]; [reflexivity|]). subst; reflexivity.
Qed.

Lemma pieceSymbol_table (t : PieceType) :
  (if PieceType_eqb t pawn then EmptyString
   else toUpperCase (charAt0 (typeName t))) = spec_piecePrefix t.
Proof.
  destruct t; reflexivity.
Qed.

(** C6. For a destination file in 0..7, [formatMove] yields the piece
    prefix (empty for a pawn, else the capital first letter of the type
    name, hence "K" for knight as for king), then "x" exactly when a
    captured piece is given, then the file letter and 8 minus the rank
    index; the origin plays no part.  The three sample moves of the
    specification format as "Ra5", "Rxa5" and "e4". *)
Theorem formatMove_spec (from to : Square) (piece : ChessPiece)
  (captured : option ChessPiece) :
  0 <= fst to <= 7 ->
  formatMove from to piece captured
    = spec_formatMove to (type piece) (truthy captured)
  /\ (forall from', formatMove from' to piece captured
                    = formatMove from to piece captured)
  /\ spec_piecePrefix knight = spec_piecePrefix king
  /\ (type piece = rook -> captured = None -> to = (0, 3) ->
      formatMove from to piece captured = "Ra5"%string)
  /\ (type piece = rook -> captured <> None -> to = (0, 3) ->
      formatMove from to piece captured = "Rxa5"%string)
  /\ (type piece = pawn -> captured = None -> to = (4, 4) ->
      formatMove from to piece captured = "e4"%string).
Proof.
  intros Hfile.
  assert (forall f, formatMove f to piece captured
                    = spec_formatMove to (type piece) (truthy captured)) as E.
  { intros f. unfold formatMove, spec_formatMove, spec_squareName.
    rewrite pieceSymbol_table, (files_letter _ Hfile). reflexivity. }
  split; [apply E|].
  split; [intros from'; now rewrite !E|].
  split; [reflexivity|].
  rewrite E.
  repeat split.
  - intros -> -> ->. reflexivity.
  - intros -> Hc ->. destruct captured; [reflexivity | congruence].
  - intros -> -> ->. reflexivity.
Qed.

Lemma formatMove_spec_witness :
  formatMove (0, 7) (0, 3) (mkPiece rook white (0, 7) None "wr1") None
  = "Ra5"%string.
Proof.
  assert (0 <= fst ((0, 3) : Square) <= 7) as H by (simpl; lia).
  destruct (formatMove_spec (0, 7) (0, 3)
              (mkPiece rook white (0, 7) None "wr1") None H)
    as [_ [_ [_ [Hr _]]]].
  apply Hr; reflexivity.
Defined.

(** ** The coordinator's no-op transitions *)

Lemma GameStatus_eqb_eq (a b : GameStatus) : GameStatus_eqb a b = true <-> a = b.
Proof.
  destruct a, b; simpl; split; intros H; try reflexivity; discriminate.
Qed.

Lemma PieceColor_eqb_eq (a b : PieceColor) : PieceColor_eqb a b = true <-> a = b.
Proof.
  destruct a, b; simpl; split; intros H; try reflexivity; discriminate.
Qed.

Lemma PieceColor_eqb_refl (a : PieceColor) : PieceColor_eqb a a = true.
Proof.
  destruct a; reflexivity.
Qed.

Lemma PieceColor_eqb_neq (a b : PieceColor) : a <> b -> PieceColor_eqb a b = false.
Proof.
  destruct a, b; simpl; intros H; try reflexivity; exfalso; apply H; reflexivity.
Qed.

Lemma handleSquareClick_checkmate (st : GameState) (x y : Z) :
  gameStatus st = checkmate -> handleSquareClick st x y = Ret st.
Proof.
  intros H. unfold handleSquareClick. rewrite H. reflexivity.
Qed.

Lemma activateSquare_fixed (st : GameState) (sq : Square) :
  handleSquareClick st (fst sq) (snd sq) = Ret st -> activateSquare st sq = Ret st.
Proof.
  intros H. unfold activateSquare. rewrite H. simpl.
  now rewrite PieceColor_eqb_refl.
Qed.

(** C3. In a state whose status is [checkmate], a square activation at any
    coordinates returns the very same state, and so does any sequence of
    activations; [resetGame] alone leads out, to the initial state. *)
Theorem checkmate_activation_noop (st : GameState) :
  gameStatus st = checkmate ->
  (forall x y, handleSquareClick st x y = Ret st)
  /\ (forall clicks, activateAll st clicks = Ret st)
  /\ resetGame st = initialState.
Proof.
  intros H. split; [|split].
  - intros x y. apply handleSquareClick_checkmate, H.
  - intros clicks. unfold activateAll.
    induction clicks as [|sq clicks IH]; simpl; [reflexivity|].
    rewrite (activateSquare_fixed st sq (handleSquareClick_checkmate st _ _ H)).
    simpl. exact IH.
  - reflexivity.
Qed.

Lemma checkmate_activation_noop_witness :
  gameStatus foolsMate = checkmate
  /\ activateAll foolsMate [(4, 7); (5, 6); (9, -3)] = Ret foolsMate.
Proof.
  split; [reflexivity|].
  apply (checkmate_activation_noop foolsMate). reflexivity.
Defined.

(** C8. With no square selected, activating a square that is empty or
    holds a piece of the player not to move returns the state as it was: the
    board, the move log, the captured pieces and every other field. *)
Theorem idle_activation_noop (st : GameState) (x y : Z)
  (c : option ChessPiece) :
  selectedPiece st = None ->
  cell (board st) x y = Ret c ->
  (c = None \/ exists piece, c = Some piece /\ color piece <> currentPlayer st) ->
  handleSquareClick st x y = Ret st
  /\ activateSquare st (x, y) = Ret st.
Proof.
  intros Hsel Hc Hsq.
  assert (handleSquareClick st x y = Ret st) as H.
  { unfold handleSquareClick.
    destruct (GameStatus_eqb (gameStatus st) checkmate); [reflexivity|].
    rewrite Hc. simpl. rewrite Hsel.
    destruct Hsq as [-> | [piece [-> Hneq]]]; [reflexivity|].
    now rewrite (PieceColor_eqb_neq _ _ Hneq). }
  split; [exact H|].
  apply activateSquare_fixed. exact H.
Qed.

Lemma idle_activation_noop_witness :
  handleSquareClick initialState 3 3 = Ret initialState
  /\ handleSquareClick initialState 4 1 = Ret initialState.
Proof.
  split.
  - apply (idle_activation_noop initialState 3 3 None);
      [reflexivity | reflexivity | left; reflexivity].
  - apply (idle_activation_noop initialState 4 1
             (Some (mkPiece pawn black (4, 1) None "bp5")));
      [reflexivity | reflexivity |].
    right. eexists. split; [reflexivity|]. simpl. discriminate.
Defined.

(** ** Coordinates outside the board *)

(** C9, as stated, fails: file 8 of rank 0 of the opening position reads as
    an empty square and the handler returns normally. *)
Lemma out_of_range_file_accepted :
  handleSquareClick initialState 8 0 = Ret initialState
  /\ ~ rejectsOutOfRange.
Proof.
  split; [reflexivity|].
  intros H. apply (H initialState 8 0) with (st' := initialState).
  - split; [reflexivity|]. unfold initialState, initialBoard; simpl.
    repeat constructor.
  - unfold onBoard; simpl. lia.
  - reflexivity.
Qed.

Lemma grid8_cell_outside (board : Board) (x y : Z) :
  grid8 board -> 0 <= y <= 7 -> ~ 0 <= x <= 7 -> cell board x y = Ret None.
Proof.
  intros [Hlen Hrows] Hy Hx. unfold cell.
  destruct (index_Some_range board y) as [row Hrow]; [lia|].
  rewrite Hrow.
  assert (List.length row = 8%nat) as Hr.
  { rewrite Forall_forall in Hrows. apply Hrows.
    unfold index in Hrow. destruct (y <? 0); [discriminate|].
    eapply nth_error_In; exact Hrow. }
  rewrite index_None_range; [reflexivity | lia].
Qed.

(** C9, amended.  The handler validates nothing and indexes the board with
    the coordinates as they come.  On an 8x8 board, status not [checkmate]:
    a rank outside 0..7 has no row and the indexing itself raises the
    [TypeError]; a file outside 0..7 on an existing rank reads as an empty
    square, so the event is a no-op when nothing is selected and clears the
    selection otherwise (unless that square is the selection or is listed
    in [validMoves]).  With status [checkmate] the state is returned
    unchanged. *)
Theorem out_of_range_activation (st : GameState) (x y : Z) :
  grid8 (board st) ->
  ~ onBoard (x, y) ->
  (gameStatus st = checkmate -> handleSquareClick st x y = Ret st)
  /\ (gameStatus st <> checkmate -> ~ 0 <= y <= 7 ->
      handleSquareClick st x y = TypeError)
  /\ (gameStatus st <> checkmate -> 0 <= y <= 7 -> selectedPiece st = None ->
      handleSquareClick st x y = Ret st)
  /\ (gameStatus st <> checkmate -> 0 <= y <= 7 ->
      forall sel, selectedPiece st = Some sel -> sel <> (x, y) ->
      ~ In (x, y) (validMoves st) ->
      handleSquareClick st x y = Ret (deselect st)).
Proof.
  intros Hg Hout.
  assert (forall s, s <> checkmate -> GameStatus_eqb s checkmate = false) as Hs.
  { intros s Hn. destruct (GameStatus_eqb s checkmate) eqn:E; [|reflexivity].
    apply GameStatus_eqb_eq in E. contradiction. }
  split; [apply handleSquareClick_checkmate|].
  split; [|split].
  - intros Hn Hy. unfold handleSquareClick. rewrite (Hs _ Hn).
    unfold cell. rewrite index_None_range; [reflexivity|].
    destruct Hg as [-> _]. lia.
  - intros Hn Hy Hsel. unfold handleSquareClick. rewrite (Hs _ Hn).
    rewrite grid8_cell_outside; [|exact Hg|exact Hy|].
    + simpl. rewrite Hsel. reflexivity.
    + unfold onBoard in Hout; simpl in Hout. lia.
  - intros Hn Hy [selX selY] Hsel Hneq Hnot.
    unfold handleSquareClick. rewrite (Hs _ Hn).
    rewrite grid8_cell_outside; [|exact Hg|exact Hy|].
    + simpl. rewrite Hsel.
      destruct ((selX =? x) && (selY =? y)) eqn:E.
      { apply andb_true_iff in E. destruct E as [E1 E2].
        apply Z.eqb_eq in E1, E2. subst. contradiction Hneq; reflexivity. }
      match goal with
      | |- context [existsb ?f ?l] => destruct (existsb f l) eqn:Ex
      end; [|reflexivity].
      apply existsb_exists in Ex. destruct Ex as [[mx my] [Hin Hm]].
      simpl in Hm. apply andb_true_iff in Hm. destruct Hm as [E1 E2].
      apply Z.eqb_eq in E1, E2. subst. contradiction.
    + unfold onBoard in Hout; simpl in Hout. lia.
Qed.

Lemma out_of_range_activation_witness :
  handleSquareClick initialState 0 8 = TypeError
  /\ handleSquareClick initialState (-1) 0 = Ret initialState.
Proof.
  assert (grid8 (board initialState)) as Hg.
  { split; [reflexivity|]. unfold initialState, initialBoard; simpl.
    repeat constructor. }
  split.
  - assert (~ onBoard (0, 8)) as Ho by (unfold onBoard; simpl; lia).
    destruct (out_of_range_activation initialState 0 8 Hg Ho) as [_ [H _]].
    apply H; [simpl; discriminate | lia].
  - assert (~ onBoard (-1, 0)) as Ho by (unfold onBoard; simpl; lia).
    destruct (out_of_range_activation initialState (-1) 0 Hg Ho) as [_ [_ [H _]]].
    apply H; [simpl; discriminate | lia | reflexivity].
Defined.

(** ** Termination of the path walk *)

Lemma sgn_cases (d : Z) :
  (d < 0 /\ Z.sgn d = -1) \/ (d = 0 /\ Z.sgn d = 0) \/ (0 < d /\ Z.sgn d = 1).
Proof.
  destruct (Z.lt_trichotomy d 0) as [H | [H | H]].
  - left. split; [exact H | apply Z.sgn_neg; exact H].
  - right; left. subst. split; reflexivity.
  - right; right. split; [exact H | apply Z.sgn_pos; exact H].
Qed.

(** More budget never changes an answer already reached. *)
Lemma isPathClear_loop_mono (board : Board) (dx dy toX toY : Z) (n m : nat) :
  forall x y,
    isPathClear_loop n board x y dx dy toX toY <> Diverge ->
    isPathClear_loop (n + m) board x y dx dy toX toY
    = isPathClear_loop n board x y dx dy toX toY.
Proof.
  induction n as [|n IH]; intros x y H; simpl in *.
  - contradiction H; reflexivity.
  - destruct (negb (x =? toX) || negb (y =? toY)); [|reflexivity].
    destruct (cell board x y) as [c| |]; simpl in *; try reflexivity.
    destruct (truthy c); [reflexivity|].
    apply IH. exact H.
Qed.

Lemma cell_not_Diverge (board : Board) (x y : Z) : cell board x y <> Diverge.
Proof.
  unfold cell. destruct (index board y) as [row|]; [|discriminate].
  destruct (index row x); discriminate.
Qed.

(** A walk whose destination lies [n] steps ahead on its own line ends
    within [n + 1] evaluations of the loop condition. *)
Lemma isPathClear_loop_line (board : Board) (dx dy toX toY : Z) :
  forall (n : nat) (x y : Z),
    toX = x + Z.of_nat n * dx ->
    toY = y + Z.of_nat n * dy ->
    isPathClear_loop (S n) board x y dx dy toX toY <> Diverge.
Proof.
  induction n as [|n IH]; intros x y Hx Hy.
  - cbn [isPathClear_loop].
    replace toX with x by lia. replace toY with y by lia.
    rewrite !Z.eqb_refl. simpl. discriminate.
  - cbn [isPathClear_loop].
    destruct (negb (x =? toX) || negb (y =? toY)); [|discriminate].
    pose proof (cell_not_Diverge board x y) as Hc.
    destruct (cell board x y) as [c| |]; simpl; try discriminate;
      [|contradiction Hc; reflexivity].
    destruct (truthy c); [discriminate|].
    apply IH; rewrite Nat2Z.inj_succ in *; lia.
Qed.

(** The same walk completes normally when every rank it crosses has a
    row. *)
Lemma isPathClear_loop_line_total (board : Board) (dx dy toX toY : Z) :
  forall (n : nat) (x y : Z),
    toX = x + Z.of_nat n * dx ->
    toY = y + Z.of_nat n * dy ->
    (forall j, 0 <= j < Z.of_nat n ->
       0 <= y + j * dy < Z.of_nat (List.length board)) ->
    exists b, isPathClear_loop (S n) board x y dx dy toX toY = Ret b.
Proof.
  induction n as [|n IH]; intros x y Hx Hy Hrows.
  - cbn [isPathClear_loop].
    replace toX with x by lia. replace toY with y by lia.
    rewrite !Z.eqb_refl. simpl. eauto.
  - cbn [isPathClear_loop].
    destruct (negb (x =? toX) || negb (y =? toY)); [|eauto].
    destruct (cell_total board x y) as [c Hc].
    { specialize (Hrows 0). rewrite Nat2Z.inj_succ in Hrows. lia. }
    rewrite Hc. simpl.
    destruct (truthy c); [eauto|].
    apply IH; try (rewrite Nat2Z.inj_succ in *; lia).
    intros j Hj. specialize (Hrows (j + 1)).
    rewrite Nat2Z.inj_succ in Hrows. lia.
Qed.

(** A walk that never stands on the destination cannot answer [true]. *)
Lemma isPathClear_loop_never_true (board : Board) (dx dy toX toY : Z) :
  forall (fuel : nat) (x y : Z),
    (forall j, 0 <= j -> (x + j * dx, y + j * dy) <> (toX, toY)) ->
    isPathClear_loop fuel board x y dx dy toX toY <> Ret true.
Proof.
  induction fuel as [|fuel IH]; intros x y Hne; [discriminate|].
  cbn [isPathClear_loop].
  destruct (negb (x =? toX) || negb (y =? toY)) eqn:E.
  - destruct (cell board x y) as [c| |]; simpl; try discriminate.
    destruct (truthy c); [discriminate|].
    apply IH. intros j Hj. specialize (Hne (j + 1)).
    replace (x + dx + j * dx) with (x + (j + 1) * dx) by lia.
    replace (y + dy + j * dy) with (y + (j + 1) * dy) by lia.
    apply Hne. lia.
  - apply orb_false_iff in E. destruct E as [E1 E2].
    apply negb_false_iff in E1, E2. apply Z.eqb_eq in E1, E2.
    exfalso. apply (Hne 0); [lia|]. f_equal; lia.
Qed.

Lemma aligned_walk_reaches (from to : Square) :
  aligned from to -> walkPos from to (distance from to) = to.
Proof.
  destruct from as [fx fy], to as [tx ty].
  unfold aligned, walkPos, distance; simpl. intros H.
  destruct (sgn_cases (tx - fx)) as [[H1 ->] | [[H1 ->] | [H1 ->]]];
  destruct (sgn_cases (ty - fy)) as [[H2 ->] | [[H2 ->] | [H2 ->]]];
  f_equal; lia.
Qed.

Lemma unaligned_walk_misses (from to : Square) (i : Z) :
  ~ aligned from to -> walkPos from to i <> to.
Proof.
  destruct from as [fx fy], to as [tx ty].
  unfold aligned, walkPos; simpl. intros H E. apply H.
  inversion E as [[E1 E2]]. clear E.
  destruct (sgn_cases (tx - fx)) as [[H1 S1] | [[H1 S1] | [H1 S1]]];
  destruct (sgn_cases (ty - fy)) as [[H2 S2] | [[H2 S2] | [H2 S2]]];
  rewrite S1 in *; rewrite S2 in *; lia.
Qed.

Lemma onBoard_distance (from to : Square) :
  onBoard from -> onBoard to -> distance from to <= 7.
Proof.
  unfold onBoard, distance. lia.
Qed.

(** On aligned, distinct squares the walk ends within [distance] steps. *)
Lemma isPathClear_aligned (board : Board) (from to : Square) (fuel : nat) :
  aligned from to -> from <> to ->
  (Z.to_nat (distance from to) <= fuel)%nat ->
  isPathClear fuel board from to <> Diverge
  /\ isPathClear fuel board from to
     = isPathClear (Z.to_nat (distance from to)) board from to.
Proof.
  intros Ha Hne Hfuel.
  pose proof (aligned_walk_reaches from to Ha) as Hreach.
  assert (1 <= distance from to) as Hpos.
  { destruct from as [fx fy], to as [tx ty]. unfold distance; simpl.
    assert (fx <> tx \/ fy <> ty) as D.
    { destruct (Z.eq_dec fx tx); [right | left; assumption].
      intros ->. apply Hne. subst; reflexivity. }
    lia. }
  remember (distance from to) as K eqn:EqK. clear EqK.
  destruct from as [fx fy], to as [tx ty].
  unfold walkPos in Hreach. cbn [fst snd] in Hreach.
  pose proof (f_equal fst Hreach) as Hx.
  pose proof (f_equal snd Hreach) as Hy.
  cbn [fst snd] in Hx, Hy. clear Hreach.
  destruct (Z.to_nat K) as [|n] eqn:EK; [lia|].
  assert (isPathClear (S n) board (fx, fy) (tx, ty) <> Diverge) as Hn.
  { assert (K = Z.of_nat n + 1) as HK by lia.
    rewrite HK in Hx, Hy.
    unfold isPathClear. apply isPathClear_loop_line; lia. }
  assert (isPathClear fuel board (fx, fy) (tx, ty)
          = isPathClear (S n) board (fx, fy) (tx, ty)) as Hm.
  { replace fuel with (S n + (fuel - S n))%nat by lia.
    unfold isPathClear. apply isPathClear_loop_mono. exact Hn. }
  split; [rewrite Hm; exact Hn | exact Hm].
Qed.

Lemma isPathClear_aligned_total (board : Board) (from to : Square) :
  aligned from to -> from <> to ->
  0 <= snd from < Z.of_nat (List.length board) ->
  0 <= snd to < Z.of_nat (List.length board) ->
  exists b, isPathClear (walkBudget from to) board from to = Ret b.
Proof.
  intros Ha Hne Hf Ht.
  destruct (isPathClear_aligned board from to (walkBudget from to) Ha Hne)
    as [_ ->]; [unfold walkBudget; lia|].
  pose proof (aligned_walk_reaches from to Ha) as Hreach.
  assert (1 <= distance from to) as Hpos.
  { destruct from as [fx fy], to as [tx ty]. unfold distance; simpl.
    assert (fx <> tx \/ fy <> ty) as D.
    { destruct (Z.eq_dec fx tx); [right | left; assumption].
      intros ->. apply Hne. subst; reflexivity. }
    lia. }
  remember (distance from to) as K eqn:EqK. clear EqK.
  destruct from as [fx fy], to as [tx ty].
  unfold walkPos in Hreach. cbn [fst snd] in *.
  pose proof (f_equal fst Hreach) as Hx.
  pose proof (f_equal snd Hreach) as Hy.
  cbn [fst snd] in Hx, Hy. clear Hreach.
  destruct (Z.to_nat K) as [|n] eqn:EK; [lia|].
  assert (K = Z.of_nat n + 1) as HK by lia.
  rewrite HK in Hx, Hy.
  unfold isPathClear. apply isPathClear_loop_line_total; lia.
Qed.

(** ** What [isValidMove] asks of the path helper *)

Lemma isValidMove_with_ext
  (pathA pathB : Board -> Square -> Square -> outcome bool)
  (board : Board) (from to : Square) (piece : ChessPiece) :
  (aligned from to -> from <> to -> pathA board from to = pathB board from to) ->
  isValidMove_with pathA board from to piece
  = isValidMove_with pathB board from to piece.
Proof.
  intros H. destruct from as [fx fy], to as [tx ty].
  unfold isValidMove_with.
  destruct (cell board tx ty) as [target| |]; simpl; try reflexivity.
  destruct ((fx =? tx) && (fy =? ty)) eqn:Esame; [reflexivity|].
  assert ((fx, fy) <> (tx, ty)) as Hne.
  { intros E. inversion E; subst. rewrite !Z.eqb_refl in Esame. discriminate. }
  match goal with |- (if ?c then _ else _) = _ => destruct c end;
    [reflexivity|].
  destruct (type piece); try reflexivity.
  - destruct ((tx - fx =? 0) || (ty - fy =? 0)) eqn:E; [|reflexivity].
    apply H; [|exact Hne]. unfold aligned; simpl.
    apply orb_true_iff in E. destruct E as [E|E]; apply Z.eqb_eq in E; lia.
  - destruct (Z.abs (tx - fx) =? Z.abs (ty - fy)) eqn:E; [|reflexivity].
    apply H; [|exact Hne]. unfold aligned; simpl.
    apply Z.eqb_eq in E. lia.
  - destruct ((tx - fx =? 0) || (ty - fy =? 0)
              || (Z.abs (tx - fx) =? Z.abs (ty - fy))) eqn:E; [|reflexivity].
    apply H; [|exact Hne]. unfold aligned; simpl.
    apply orb_true_iff in E. destruct E as [E|E].
    + apply orb_true_iff in E. destruct E as [E|E]; apply Z.eqb_eq in E; lia.
    + apply Z.eqb_eq in E. lia.
Qed.

Lemma isValidMove_with_other_pieces
  (pathA pathB : Board -> Square -> Square -> outcome bool)
  (board : Board) (from to : Square) (piece : ChessPiece) :
  type piece = pawn \/ type piece = knight \/ type piece = king ->
  isValidMove_with pathA board from to piece
  = isValidMove_with pathB board from to piece.
Proof.
  intros H. destruct from as [fx fy], to as [tx ty].
  unfold isValidMove_with.
  destruct H as [-> | [-> | ->]]; reflexivity.
Qed.

(** Case principle for the answers of [isValidMove_with]: a [TypeError]
    from reading the destination, a boolean it computes itself, or the
    helper's answer on aligned, distinct squares. *)
Lemma isValidMove_with_cases
  (path : Board -> Square -> Square -> outcome bool)
  (board : Board) (from to : Square) (piece : ChessPiece)
  (Q : outcome bool -> Prop) :
  (cell board (fst to) (snd to) = TypeError -> Q TypeError) ->
  (forall b, Q (Ret b)) ->
  (aligned from to -> from <> to -> Q (path board from to)) ->
  Q (isValidMove_with path board from to piece).
Proof.
  intros Herr Hret Hpath. destruct from as [fx fy], to as [tx ty].
  unfold isValidMove_with. cbn [fst snd] in Herr.
  pose proof (cell_not_Diverge board tx ty) as Hnd.
  destruct (cell board tx ty) as [target| |]; simpl;
    [|apply Herr; reflexivity|contradiction Hnd; reflexivity].
  destruct ((fx =? tx) && (fy =? ty)) eqn:Esame; [apply Hret|].
  assert ((fx, fy) <> (tx, ty)) as Hne.
  { intros E. inversion E; subst. rewrite !Z.eqb_refl in Esame. discriminate. }
  match goal with |- Q (if ?c then _ else _) => destruct c end; [apply Hret|].
  destruct (type piece).
  - repeat match goal with
           | |- Q (if ?c then _ else _) => destruct c
           end; apply Hret.
  - destruct ((tx - fx =? 0) || (ty - fy =? 0)) eqn:E; [|apply Hret].
    apply Hpath; [|exact Hne]. unfold aligned; simpl.
    apply orb_true_iff in E. destruct E as [E|E]; apply Z.eqb_eq in E; lia.
  - apply Hret.
  - destruct (Z.abs (tx - fx) =? Z.abs (ty - fy)) eqn:E; [|apply Hret].
    apply Hpath; [|exact Hne]. unfold aligned; simpl.
    apply Z.eqb_eq in E. lia.
  - destruct ((tx - fx =? 0) || (ty - fy =? 0)
              || (Z.abs (tx - fx) =? Z.abs (ty - fy))) eqn:E; [|apply Hret].
    apply Hpath; [|exact Hne]. unfold aligned; simpl.
    apply orb_true_iff in E. destruct E as [E|E].
    + apply orb_true_iff in E. destruct E as [E|E]; apply Z.eqb_eq in E; lia.
    + apply Z.eqb_eq in E. lia.
  - apply Hret.
Qed.

Lemma isValidMove_not_Diverge (board : Board) (from to : Square)
  (piece : ChessPiece) :
  isValidMove board from to piece <> Diverge.
Proof.
  unfold isValidMove. apply isValidMove_with_cases.
  - discriminate.
  - discriminate.
  - intros Ha Hne. apply isPathClear_aligned; [assumption..|].
    unfold walkBudget. lia.
Qed.

Lemma isValidMove_total (board : Board) (from to : Square)
  (piece : ChessPiece) :
  0 <= snd from < Z.of_nat (List.length board) ->
  0 <= snd to < Z.of_nat (List.length board) ->
  exists b, isValidMove board from to piece = Ret b.
Proof.
  intros Hf Ht. unfold isValidMove. apply isValidMove_with_cases.
  - intros H. destruct (cell_total board (fst to) (snd to) Ht) as [c Hc].
    congruence.
  - eauto.
  - intros Ha Hne. apply isPathClear_aligned_total; assumption.
Qed.

(** The budget [isValidMove] hands to the walk is immaterial: any budget
    of at least [distance] steps gives the same function. *)
Lemma isValidMove_budget_irrelevant (budget : Square -> Square -> nat)
  (board : Board) (from to : Square) (piece : ChessPiece) :
  (forall f t, (Z.to_nat (distance f t) <= budget f t)%nat) ->
  isValidMove_with (fun b f t => isPathClear (budget f t) b f t)
                   board from to piece
  = isValidMove board from to piece.
Proof.
  intros Hb. unfold isValidMove. apply isValidMove_with_ext.
  intros Ha Hne.
  destruct (isPathClear_aligned board from to (budget from to) Ha Hne (Hb _ _))
    as [_ ->].
  destruct (isPathClear_aligned board from to (walkBudget from to) Ha Hne)
    as [_ ->]; [unfold walkBudget; lia | reflexivity].
Qed.

Lemma unaligned_isPathClear_never_true (board : Board) (from to : Square)
  (fuel : nat) :
  ~ aligned from to -> isPathClear fuel board from to <> Ret true.
Proof.
  intros Hna. pose proof (unaligned_walk_misses from to) as Hmiss.
  destruct from as [fx fy], to as [tx ty].
  unfold isPathClear. apply isPathClear_loop_never_true.
  intros j Hj E. apply (Hmiss (j + 1) Hna).
  unfold walkPos; cbn [fst snd]. rewrite <- E. f_equal; lia.
Qed.

(** C10. [isValidMove] never exhausts the walk's budget, so every call it
    makes to [isPathClear] terminates.  Its answer depends on the helper
    only for a rook, bishop or queen on distinct squares sharing a rank, a
    file or a diagonal.  On such squares the walk stands on the destination
    after [distance] unit steps, at most seven on the board, and any budget
    of that many steps suffices.  On squares that are not aligned no step of
    the walk ever stands on the destination, and the helper cannot answer
    [true] whatever the budget. *)
Theorem isPathClear_terminates_when_aligned
  (board : Board) (from to : Square) (piece : ChessPiece) :
  isValidMove board from to piece <> Diverge
  /\ (forall pathA pathB : Board -> Square -> Square -> outcome bool,
        (aligned from to -> from <> to ->
         type piece = rook \/ type piece = bishop \/ type piece = queen ->
         pathA board from to = pathB board from to) ->
        isValidMove_with pathA board from to piece
        = isValidMove_with pathB board from to piece)
  /\ (aligned from to -> from <> to ->
      walkPos from to (distance from to) = to
      /\ forall fuel, (Z.to_nat (distance from to) <= fuel)%nat ->
           isPathClear fuel board from to <> Diverge)
  /\ (aligned from to -> from <> to -> onBoard from -> onBoard to ->
      distance from to <= 7 /\ isPathClear 7 board from to <> Diverge)
  /\ (~ aligned from to ->
      (forall i, walkPos from to i <> to)
      /\ forall fuel, isPathClear fuel board from to <> Ret true).
Proof.
  split; [apply isValidMove_not_Diverge|].
  split.
  { intros pathA pathB H.
    destruct (type piece) eqn:Et;
      try (apply isValidMove_with_other_pieces; rewrite Et; tauto);
      apply isValidMove_with_ext; intros Ha Hne; apply H; tauto. }
  split.
  { intros Ha Hne. split; [apply aligned_walk_reaches; exact Ha|].
    intros fuel Hfuel. apply isPathClear_aligned; assumption. }
  split.
  { intros Ha Hne Hf Ht.
    pose proof (onBoard_distance from to Hf Ht) as Hd.
    split; [exact Hd|].
    apply isPathClear_aligned; [assumption..|]. lia. }
  intros Hna. split.
  - intros i. apply unaligned_walk_misses. exact Hna.
  - intros fuel. apply unaligned_isPathClear_never_true. exact Hna.
Qed.

Lemma isPathClear_terminates_when_aligned_witness :
  distance (0, 7) (0, 3) <= 7
  /\ isPathClear 7 initialBoard (0, 7) (0, 3) <> Diverge.
Proof.
  destruct (isPathClear_terminates_when_aligned initialBoard (0, 7) (0, 3)
              (mkPiece rook white (0, 7) None "wr1")) as [_ [_ [_ [H _]]]].
  apply H.
  - unfold aligned; simpl. left; reflexivity.
  - discriminate.
  - unfold onBoard; simpl. lia.
  - unfold onBoard; simpl. lia.
Defined.

(** ** The result of [getValidMoves] *)

Lemma wouldBeInCheck_movedBoard (board : Board) (from to : Square)
  (clr : PieceColor) :
  wouldBeInCheck board from to clr
  = (newBoard <- movedBoard board from to ;; isInCheck newBoard clr).
Proof.
  unfold wouldBeInCheck, movedBoard.
  destruct (cell board (fst from) (snd from)) as [piece| |]; simpl; try reflexivity.
  destruct (setCell board (fst to) (snd to) piece) as [b| |]; reflexivity.
Qed.

Lemma flat_map_keep {A B : Type} (k : B -> bool) (g : A -> B) (l : list A) :
  flat_map (fun a => if k (g a) then [g a] else []) l = filter k (map g l).
Proof.
  induction l as [|a l IH]; simpl; [reflexivity|].
  rewrite IH. destruct (k (g a)); reflexivity.
Qed.

Lemma filter_flat_map {A B : Type} (k : B -> bool) (f : A -> list B)
  (l : list A) :
  filter k (flat_map f l) = flat_map (fun a => filter k (f a)) l.
Proof.
  induction l as [|a l IH]; simpl; [reflexivity|].
  now rewrite filter_app, IH.
Qed.

(** One iteration of the inner loop appends the square or nothing. *)
Lemma getValidMoves_body (board : Board) (position : Square)
  (piece : ChessPiece) (sq : Square) (acc r : list Square) :
  (ok <- isValidMove board position sq piece ;;
   if ok then
     inCheck <- wouldBeInCheck board position sq (color piece) ;;
     if negb inCheck then Ret (acc ++ [sq]) else Ret acc
   else Ret acc) = Ret r ->
  r = acc ++ (if legalDestination board position piece sq then [sq] else []).
Proof.
  unfold legalDestination.
  destruct (isValidMove board position sq piece) as [[|]| |]; simpl;
    try discriminate.
  - destruct (wouldBeInCheck board position sq (color piece)) as [[|]| |];
      simpl; try discriminate; intros H; inversion H;
      [now rewrite app_nil_r | reflexivity].
  - intros H; inversion H. now rewrite app_nil_r.
Qed.

(** [getValidMoves] returns the squares of the scan that pass the test, in
    the order of the scan. *)
Lemma getValidMoves_filter (board : Board) (position : Square)
  (piece : ChessPiece) (moves : list Square) :
  cell board (fst position) (snd position) = Ret (Some piece) ->
  getValidMoves board position = Ret moves ->
  moves = filter (legalDestination board position piece) scanOrder.
Proof.
  intros Hc H. unfold getValidMoves in H. rewrite Hc in H. cbn [bind] in H.
  apply (foldM_appends _
           (fun x => filter (legalDestination board position piece)
                            (map (fun y => (x, y)) range8))) in H.
  - simpl app in H. rewrite H. unfold scanOrder.
    now rewrite filter_flat_map.
  - intros acc x r _ Hx.
    rewrite <- (flat_map_keep (legalDestination board position piece)
                              (fun y => (x, y))).
    revert Hx. apply foldM_appends.
    intros acc' y r' _. apply getValidMoves_body.
Qed.

Lemma getValidMoves_empty_square (board : Board) (position : Square) :
  cell board (fst position) (snd position) = Ret None ->
  getValidMoves board position = Ret [].
Proof.
  intros Hc. unfold getValidMoves. rewrite Hc. reflexivity.
Qed.

Lemma fileMajorb_spec (a b : Square) : fileMajorb a b = true <-> fileMajor a b.
Proof.
  unfold fileMajorb, fileMajor.
  rewrite orb_true_iff, andb_true_iff, !Z.ltb_lt, Z.eqb_eq. reflexivity.
Qed.

Lemma sortedb_sound (l : list Square) :
  sortedb l = true -> StronglySorted fileMajor l.
Proof.
  induction l as [|a l IH]; simpl; intros H; [constructor|].
  apply andb_true_iff in H. destruct H as [H1 H2].
  constructor; [apply IH; exact H2|].
  apply Forall_forall. intros b Hb.
  apply fileMajorb_spec. rewrite forallb_forall in H1. apply H1, Hb.
Qed.

Lemma StronglySorted_filter_keeps {A : Type} (R : A -> A -> Prop)
  (k : A -> bool) (l : list A) :
  StronglySorted R l -> StronglySorted R (filter k l).
Proof.
  induction 1 as [|a l Hs IH Hall]; simpl; [constructor|].
  destruct (k a); [|exact IH].
  constructor; [exact IH|].
  apply Forall_forall. intros b Hb. apply filter_In in Hb.
  rewrite Forall_forall in Hall. apply Hall. tauto.
Qed.

Lemma scanOrder_sorted : StronglySorted fileMajor scanOrder.
Proof.
  apply sortedb_sound. vm_compute. reflexivity.
Qed.

Lemma scanOrder_onBoard (sq : Square) : In sq scanOrder <-> onBoard sq.
Proof.
  unfold scanOrder, onBoard. rewrite in_flat_map. split.
  - intros [x [Hx Hin]]. apply in_map_iff in Hin.
    destruct Hin as [y [<- Hy]]. apply range8_spec in Hx, Hy. simpl. lia.
  - intros [Hx Hy]. destruct sq as [x y]. cbn [fst snd] in *.
    exists x. split; [apply range8_spec; exact Hx|].
    apply in_map_iff. exists y. split; [reflexivity | apply range8_spec; exact Hy].
Qed.

(** ** Normal completion on a board with its eight ranks *)

Lemma store_length {A : Type} (hole : A) (arr : list A) (i : Z) (v : A) :
  (List.length arr <= List.length (store hole arr i v))%nat.
Proof.
  unfold store. destruct (i <? 0); [lia|].
  destruct (Z.to_nat i <? List.length arr)%nat eqn:E.
  - apply Nat.ltb_lt in E.
    rewrite length_app, length_firstn. cbn [List.length].
    rewrite length_skipn. lia.
  - rewrite length_app. lia.
Qed.

Lemma setCell_total (board : Board) (x y : Z) (v : option ChessPiece) :
  0 <= y < Z.of_nat (List.length board) ->
  exists b, setCell board x y v = Ret b
            /\ (List.length board <= List.length b)%nat.
Proof.
  intros H. unfold setCell.
  destruct (index_Some_range board y H) as [row ->].
  eexists. split; [reflexivity | apply store_length].
Qed.

Lemma movedBoard_total (board : Board) (from to : Square) :
  0 <= snd from < Z.of_nat (List.length board) ->
  0 <= snd to < Z.of_nat (List.length board) ->
  exists b, movedBoard board from to = Ret b
            /\ (List.length board <= List.length b)%nat.
Proof.
  intros Hf Ht. unfold movedBoard.
  destruct (cell_total board (fst from) (snd from) Hf) as [piece ->]. cbn [bind].
  destruct (setCell_total board (fst to) (snd to) piece Ht) as [b1 [-> L1]].
  cbn [bind].
  destruct (setCell_total b1 (fst from) (snd from) None) as [b2 [-> L2]];
    [lia|].
  exists b2. split; [reflexivity | lia].
Qed.

Lemma findKing_total (board : Board) (clr : PieceColor) :
  hasRanks board ->
  exists r, findKing board clr = Ret r
            /\ (forall sq, r = Some sq -> onBoard sq).
Proof.
  intros Hr.
  destruct (findM_total
              (fun y => findM (fun x =>
                 piece <- cell board x y ;;
                 if isKingOf clr piece then Ret (Some (x, y)) else Ret None)
                 range8) range8) as [r Hfk].
  { intros y Hy. apply range8_spec in Hy.
    apply findM_total. intros x _.
    destruct (cell_total_ranks board x y Hr Hy) as [c ->]. cbn [bind].
    destruct (isKingOf clr c); eauto. }
  exists r. split; [exact Hfk|].
  intros sq ->. apply findM_some_inv in Hfk. destruct Hfk as [y [Hy Hin]].
  apply findM_some_inv in Hin. destruct Hin as [x [Hx Hc]].
  apply bind_Ret_inv in Hc. destruct Hc as [c [_ Hc]].
  destruct (isKingOf clr c); inversion Hc; subst.
  apply range8_spec in Hx, Hy. split; assumption.
Qed.

Lemma isInCheck_total (board : Board) (clr : PieceColor) :
  hasRanks board -> exists b, isInCheck board clr = Ret b.
Proof.
  intros Hr. unfold isInCheck.
  destruct (findKing_total board clr Hr) as [r [-> Hon]]. cbn [bind].
  destruct r as [kingPos|]; [|eauto].
  destruct (Hon kingPos eq_refl) as [_ Hky].
  apply anyM_total. intros y Hy. apply range8_spec in Hy.
  apply anyM_total. intros x _.
  destruct (cell_total_ranks board x y Hr Hy) as [c ->]. cbn [bind].
  destruct c as [piece|]; [|eauto].
  destruct (PieceColor_eqb (color piece) (opponent clr)); [|eauto].
  unfold hasRanks in Hr. apply isValidMove_total; simpl; lia.
Qed.

Lemma wouldBeInCheck_total (board : Board) (from to : Square)
  (clr : PieceColor) :
  hasRanks board ->
  0 <= snd from < Z.of_nat (List.length board) ->
  0 <= snd to <= 7 ->
  exists b, wouldBeInCheck board from to clr = Ret b.
Proof.
  intros Hr Hf Ht. rewrite wouldBeInCheck_movedBoard.
  destruct (movedBoard_total board from to Hf) as [nb [-> Hlen]].
  { unfold hasRanks in Hr. lia. }
  cbn [bind]. apply isInCheck_total. unfold hasRanks in *. lia.
Qed.

Lemma getValidMoves_total (board : Board) (position : Square) :
  hasRanks board ->
  0 <= snd position < Z.of_nat (List.length board) ->
  exists moves, getValidMoves board position = Ret moves.
Proof.
  intros Hr Hp. unfold getValidMoves.
  destruct (cell_total board (fst position) (snd position) Hp) as [c ->].
  cbn [bind]. destruct c as [piece|]; [|eauto].
  apply foldM_total. intros acc x _.
  apply foldM_total. intros acc' y Hy. apply range8_spec in Hy.
  destruct (isValidMove_total board position (x, y) piece Hp) as [ok ->].
  { unfold hasRanks in Hr. simpl. lia. }
  cbn [bind]. destruct ok; [|eauto].
  destruct (wouldBeInCheck_total board position (x, y) (color piece) Hr Hp Hy)
    as [chk ->].
  cbn [bind]. destruct chk; simpl; eauto.
Qed.

(** ** Self-check filtering and the order of the result *)

Lemma filter_nil_when {A : Type} (k : A -> bool) (l : list A) :
  (forall a, In a l -> k a = false) -> filter k l = [].
Proof.
  induction l as [|a l IH]; simpl; intros H; [reflexivity|].
  rewrite (H a (or_introl eq_refl)). apply IH.
  intros a' Hin. apply H. right; exact Hin.
Qed.

Lemma legalDestination_true (board : Board) (position : Square)
  (piece : ChessPiece) (sq : Square) :
  legalDestination board position piece sq = true ->
  isValidMove board position sq piece = Ret true
  /\ wouldBeInCheck board position sq (color piece) = Ret false.
Proof.
  unfold legalDestination.
  destruct (isValidMove board position sq piece) as [[|]| |]; try discriminate.
  destruct (wouldBeInCheck board position sq (color piece)) as [[|]| |];
    try discriminate.
  intros _. split; reflexivity.
Qed.

(** C1. Let [from] hold a piece.  Every destination [getValidMoves]
    returns is shape-legal and survives the self-check filter: the
    hypothetical board (the piece put on the destination, [from] cleared)
    exists and [isInCheck] of the mover's color is [false] on it.  Hence a
    piece all of whose shape-legal destinations leave its king in check has
    no legal move.  On a board with its eight ranks the function completes
    normally. *)
Theorem getValidMoves_self_check_filtered
  (board : Board) (from : Square) (piece : ChessPiece) :
  cell board (fst from) (snd from) = Ret (Some piece) ->
  (hasRanks board -> exists moves, getValidMoves board from = Ret moves)
  /\ (forall moves, getValidMoves board from = Ret moves ->
        (forall to, In to moves ->
           isValidMove board from to piece = Ret true
           /\ exists hypothetical,
                movedBoard board from to = Ret hypothetical
                /\ isInCheck hypothetical (color piece) = Ret false)
        /\ ((forall to, onBoard to ->
               isValidMove board from to piece = Ret true ->
               exists hypothetical,
                 movedBoard board from to = Ret hypothetical
                 /\ isInCheck hypothetical (color piece) = Ret true) ->
            moves = [])).
Proof.
  intros Hc. split.
  { intros Hr. apply getValidMoves_total; [exact Hr|].
    eapply cell_Ret_row; exact Hc. }
  intros moves Hm.
  pose proof (getValidMoves_filter board from piece moves Hc Hm) as ->.
  split.
  - intros to Hin. apply filter_In in Hin. destruct Hin as [_ Hl].
    apply legalDestination_true in Hl. destruct Hl as [Hv Hw].
    split; [exact Hv|].
    rewrite wouldBeInCheck_movedBoard in Hw.
    apply bind_Ret_inv in Hw. exact Hw.
  - intros Hpin. apply filter_nil_when. intros to Hin.
    apply scanOrder_onBoard in Hin.
    destruct (legalDestination board from piece to) eqn:E; [|reflexivity].
    apply legalDestination_true in E. destruct E as [Hv Hw].
    destruct (Hpin to Hin Hv) as [hb [Hb Hchk]].
    rewrite wouldBeInCheck_movedBoard, Hb in Hw. cbn [bind] in Hw.
    congruence.
Qed.

Lemma getValidMoves_self_check_filtered_witness :
  isValidMove initialBoard (1, 7) (2, 5)
    (mkPiece knight white (1, 7) None "wn1") = Ret true
  /\ exists hypothetical,
       movedBoard initialBoard (1, 7) (2, 5) = Ret hypothetical
       /\ isInCheck hypothetical white = Ret false.
Proof.
  assert (cell initialBoard (fst ((1, 7) : Square)) (snd ((1, 7) : Square))
          = Ret (Some (mkPiece knight white (1, 7) None "wn1"))) as Hc
    by reflexivity.
  destruct (getValidMoves_self_check_filtered initialBoard (1, 7)
              (mkPiece knight white (1, 7) None "wn1") Hc) as [_ H].
  destruct (H [(0, 5); (2, 5)]) as [Hall _]; [reflexivity|].
  apply Hall. simpl. right; left; reflexivity.
Defined.

(** The pinned bishop of [pinnedBoard] has shape-legal moves and no legal
    one. *)
Example pinned_bishop_cannot_move :
  isValidMove pinnedBoard (4, 6) (5, 5)
    (mkPiece bishop white (4, 6) (Some true) "wb1") = Ret true
  /\ getValidMoves pinnedBoard (4, 6) = Ret [].
Proof.
  split; reflexivity.
Qed.

(** C5, as stated, fails: after 1. e4 e5 the white queen's destinations come
    out by ascending file, which is descending rank. *)
Lemma getValidMoves_not_rank_major :
  getValidMoves (board afterE4E5) (3, 7) = Ret [(4, 6); (5, 5); (6, 4); (7, 3)]
  /\ ~ (forall brd position piece moves,
          cell brd (fst position) (snd position) = Ret (Some piece) ->
          getValidMoves brd position = Ret moves ->
          StronglySorted rankMajor moves).
Proof.
  split; [reflexivity|].
  intros H.
  specialize (H (board afterE4E5) (3, 7)
                (mkPiece queen white (3, 7) None "wq")
                [(4, 6); (5, 5); (6, 4); (7, 3)] eq_refl eq_refl).
  inversion H as [|a l _ Hall]; subst.
  inversion Hall as [|b l' Hab _]; subst.
  unfold rankMajor in Hab; simpl in Hab. lia.
Qed.

(** C5, amended.  The sequence [getValidMoves] returns is ordered by file,
    then by rank: a destination with a smaller file index comes first, and on
    one file the smaller rank index comes first (the order of its own scan,
    whose outer loop runs over the file). *)
Theorem getValidMoves_file_major
  (board : Board) (position : Square) (moves : list Square) :
  getValidMoves board position = Ret moves ->
  StronglySorted fileMajor moves
  /\ (forall sq, In sq moves -> onBoard sq).
Proof.
  intros H.
  assert (exists c, cell board (fst position) (snd position) = Ret c) as [c Hc].
  { unfold getValidMoves in H. apply bind_Ret_inv in H.
    destruct H as [c [Hc _]]. eauto. }
  destruct c as [piece|].
  - rewrite (getValidMoves_filter board position piece moves Hc H). split.
    + apply StronglySorted_filter_keeps, scanOrder_sorted.
    + intros sq Hin. apply filter_In in Hin. apply scanOrder_onBoard. tauto.
  - rewrite (getValidMoves_empty_square board position Hc) in H.
    inversion H; subst. split; [constructor | intros sq []].
Qed.

Lemma getValidMoves_file_major_witness :
  StronglySorted fileMajor [(4, 6); (5, 5); (6, 4); (7, 3)].
Proof.
  apply (getValidMoves_file_major (board afterE4E5) (3, 7)). reflexivity.
Defined.

(** ** Checkmate and the status *)

(** The test of [isCheckmate]'s scan on one square. *)
Lemma isCheckmate_body_false (board : Board) (clr : PieceColor) (x y : Z) :
  (piece <- cell board x y ;;
   match piece with
   | Some piece =>
       if PieceColor_eqb (color piece) clr then
         validMoves <- getValidMoves board (x, y) ;;
         Ret (0 <? List.length validMoves)%nat
       else Ret false
   | None => Ret false
   end) = Ret false
  <-> exists c, cell board x y = Ret c
                /\ (forall piece, c = Some piece -> color piece = clr ->
                      getValidMoves board (x, y) = Ret []).
Proof.
  split.
  - intros H. apply bind_Ret_inv in H. destruct H as [c [Hc H]].
    exists c. split; [exact Hc|]. intros piece -> Hclr.
    rewrite Hclr, PieceColor_eqb_refl in H.
    apply bind_Ret_inv in H. destruct H as [vm [Hvm H]].
    destruct vm as [|m vm]; [exact Hvm | discriminate].
  - intros [c [Hc H]]. rewrite Hc. cbn [bind].
    destruct c as [piece|]; [|reflexivity].
    destruct (PieceColor_eqb (color piece) clr) eqn:E; [|reflexivity].
    apply PieceColor_eqb_eq in E. rewrite (H piece eq_refl E). reflexivity.
Qed.

Lemma isCheckmate_true_iff (board : Board) (clr : PieceColor) :
  hasRanks board ->
  (isCheckmate board clr = Ret true <->
   isInCheck board clr = Ret true
   /\ forall x y piece, 0 <= x <= 7 -> 0 <= y <= 7 ->
        cell board x y = Ret (Some piece) -> color piece = clr ->
        getValidMoves board (x, y) = Ret []).
Proof.
  intros Hr. unfold isCheckmate. split.
  - intros H. apply bind_Ret_inv in H. destruct H as [b [Hb H]].
    destruct b; [|discriminate]. cbn [negb] in H.
    split; [exact Hb|].
    apply bind_Ret_inv in H. destruct H as [cm [Hcm H]].
    destruct cm; [discriminate|].
    intros x y piece Hx Hy Hc Hclr.
    rewrite anyM_false_iff in Hcm.
    specialize (Hcm y (proj2 (range8_spec y) Hy)).
    rewrite anyM_false_iff in Hcm.
    specialize (Hcm x (proj2 (range8_spec x) Hx)).
    apply isCheckmate_body_false in Hcm. destruct Hcm as [c [Hc' Hcm]].
    apply (Hcm piece); congruence.
  - intros [Hchk Hall]. rewrite Hchk. cbn [bind negb].
    match goal with
    | |- bind ?m _ = _ => assert (m = Ret false) as ->; [|reflexivity]
    end.
    apply anyM_false_iff. intros y Hy. apply range8_spec in Hy.
    apply anyM_false_iff. intros x Hx. apply range8_spec in Hx.
    apply isCheckmate_body_false.
    destruct (cell_total_ranks board x y Hr Hy) as [c Hc].
    exists c. split; [exact Hc|].
    intros piece -> Hclr. apply (Hall x y piece); assumption.
Qed.

Lemma isCheckmate_total (board : Board) (clr : PieceColor) :
  hasRanks board -> exists b, isCheckmate board clr = Ret b.
Proof.
  intros Hr. unfold isCheckmate.
  destruct (isInCheck_total board clr Hr) as [b ->]. cbn [bind].
  destruct b; cbn [negb]; [|eauto].
  match goal with
  | |- exists _, bind ?m _ = _ => assert (exists cm, m = Ret cm) as [cm ->]
  end; [|cbn [bind]; eauto].
  apply anyM_total. intros y Hy. apply range8_spec in Hy.
  apply anyM_total. intros x _.
  destruct (cell_total_ranks board x y Hr Hy) as [c Hc]. rewrite Hc.
  cbn [bind]. destruct c as [piece|]; [|eauto].
  destruct (PieceColor_eqb (color piece) clr); [|eauto].
  destruct (getValidMoves_total board (x, y) Hr) as [vm ->].
  { eapply cell_Ret_row; exact Hc. }
  cbn [bind]. eauto.
Qed.

Lemma isCheckmate_not_in_check (board : Board) (clr : PieceColor) :
  isInCheck board clr = Ret false -> isCheckmate board clr = Ret false.
Proof.
  intros H. unfold isCheckmate. rewrite H. reflexivity.
Qed.

Lemma newStatus_not_stalemate (board : Board) (clr : PieceColor) s :
  newStatus board clr = Ret s -> s <> stalemate.
Proof.
  unfold newStatus. intros H.
  apply bind_Ret_inv in H. destruct H as [a [_ H]].
  apply bind_Ret_inv in H. destruct H as [b [_ H]].
  inversion H. destruct b; [|destruct a]; discriminate.
Qed.

Lemma select_status (st st' : GameState) (x y : Z) :
  select st x y = Ret st' -> gameStatus st' = gameStatus st.
Proof.
  unfold select. intros H. apply bind_Ret_inv in H.
  destruct H as [moves [_ H]]. inversion H. reflexivity.
Qed.

Lemma reselect_status (st st' : GameState) piece (x y : Z) :
  reselect st piece x y = Ret st' -> gameStatus st' = gameStatus st.
Proof.
  unfold reselect. intros H.
  destruct piece as [p|];
    [destruct (PieceColor_eqb (color p) (currentPlayer st));
       [eapply select_status; exact H|]|];
    inversion H; reflexivity.
Qed.

(** The click handler never writes the status. *)
Lemma handleSquareClick_status (st st' : GameState) (x y : Z) :
  handleSquareClick st x y = Ret st' -> gameStatus st' = gameStatus st.
Proof.
  unfold handleSquareClick. intros H.
  destruct (GameStatus_eqb (gameStatus st) checkmate);
    [inversion H; reflexivity|].
  apply bind_Ret_inv in H. destruct H as [piece [_ H]].
  destruct (selectedPiece st) as [[selX selY]|].
  - destruct ((selX =? x) && (selY =? y)); [inversion H; reflexivity|].
    match type of H with
    | (if ?c then _ else _) = _ => destruct c
    end; [|eapply reselect_status; exact H].
    apply bind_Ret_inv in H. destruct H as [moving [_ H]].
    apply bind_Ret_inv in H. destruct H as [captured [_ H]].
    destruct moving as [m|]; [|eapply reselect_status; exact H].
    apply bind_Ret_inv in H. destruct H as [b1 [_ H]].
    apply bind_Ret_inv in H. destruct H as [b2 [_ H]].
    inversion H. reflexivity.
  - destruct piece as [p|];
      [destruct (PieceColor_eqb (color p) (currentPlayer st));
         [eapply select_status; exact H|]|];
      inversion H; reflexivity.
Qed.

Lemma activateSquare_not_stalemate (st st' : GameState) (sq : Square) :
  gameStatus st <> stalemate ->
  activateSquare st sq = Ret st' -> gameStatus st' <> stalemate.
Proof.
  intros Hs H. unfold activateSquare in H.
  apply bind_Ret_inv in H. destruct H as [st1 [H1 H]].
  apply handleSquareClick_status in H1.
  destruct (PieceColor_eqb (currentPlayer st1) (currentPlayer st)).
  - inversion H; subst. congruence.
  - unfold useEffect_status in H.
    apply bind_Ret_inv in H. destruct H as [s [Hs' H]].
    apply newStatus_not_stalemate in Hs'.
    destruct (negb (GameStatus_eqb s (gameStatus st1)));
      inversion H; subst; simpl; congruence.
Qed.

Lemma activateAll_not_stalemate (clicks : list Square) :
  forall st st', gameStatus st <> stalemate ->
    activateAll st clicks = Ret st' -> gameStatus st' <> stalemate.
Proof.
  unfold activateAll.
  induction clicks as [|sq clicks IH]; simpl; intros st st' Hs H.
  - inversion H; subst. exact Hs.
  - apply bind_Ret_inv in H. destruct H as [st1 [H1 H]].
    eapply IH; [|exact H].
    eapply activateSquare_not_stalemate; eassumption.
Qed.

(** C2. On a board with its eight ranks, [isCheckmate] answers [true]
    exactly when [isInCheck] does and every piece of the color on the 64
    squares has an empty [getValidMoves] list.  When the color is not in
    check the status computed is [playing], whatever its legal moves; the
    status computed is never [stalemate], and no sequence of activations
    from the initial state reaches a state with that status. *)
Theorem isCheckmate_iff_check_and_no_moves (board : Board) (clr : PieceColor) :
  hasRanks board ->
  (isCheckmate board clr = Ret true <->
   isInCheck board clr = Ret true
   /\ forall x y piece, 0 <= x <= 7 -> 0 <= y <= 7 ->
        cell board x y = Ret (Some piece) -> color piece = clr ->
        getValidMoves board (x, y) = Ret [])
  /\ (exists b, isCheckmate board clr = Ret b)
  /\ (isInCheck board clr = Ret false -> newStatus board clr = Ret playing)
  /\ (exists s, newStatus board clr = Ret s /\ s <> stalemate)
  /\ (forall clicks st, activateAll initialState clicks = Ret st ->
        gameStatus st <> stalemate).
Proof.
  intros Hr.
  split; [apply isCheckmate_true_iff; exact Hr|].
  split; [apply isCheckmate_total; exact Hr|].
  split.
  { intros H. unfold newStatus.
    rewrite H, (isCheckmate_not_in_check board clr H). reflexivity. }
  split.
  { destruct (isInCheck_total board clr Hr) as [a Ha].
    destruct (isCheckmate_total board clr Hr) as [b Hb].
    unfold newStatus. rewrite Ha, Hb. cbn [bind].
    eexists. split; [reflexivity|].
    destruct b; [|destruct a]; discriminate. }
  intros clicks st H.
  eapply activateAll_not_stalemate; [|exact H]. simpl. discriminate.
Qed.

Lemma isCheckmate_iff_check_and_no_moves_witness :
  hasRanks stalemateBoard /\ newStatus stalemateBoard black = Ret playing.
Proof.
  assert (hasRanks stalemateBoard) as Hr by (unfold hasRanks; simpl; lia).
  split; [exact Hr|].
  destruct (isCheckmate_iff_check_and_no_moves stalemateBoard black Hr)
    as [_ [_ [H _]]].
  apply H. reflexivity.
Defined.

(** A stalemate: black, not in check, has no legal move, and the status
    computed is [playing]. *)
Example stalemate_reads_playing :
  isInCheck stalemateBoard black = Ret false
  /\ getValidMoves stalemateBoard (0, 0) = Ret []
  /\ newStatus stalemateBoard black = Ret playing.
Proof.
  repeat split; reflexivity.
Qed.

(** * Further properties of the engine *)

(** ** What [isValidMove] never accepts *)

Lemma isValidMove_true_distinct_not_own_aux
  (board : Board) (from to : Square) (piece : ChessPiece) :
  isValidMove board from to piece = Ret true ->
  from <> to
  /\ exists target, cell board (fst to) (snd to) = Ret target
                    /\ notOwn piece target.
Proof.
  unfold isValidMove, isValidMove_with.
  destruct from as [fx fy], to as [tx ty]. cbn [fst snd]. intros H.
  apply bind_Ret_inv in H. destruct H as [target [Hc H]].
  destruct ((fx =? tx) && (fy =? ty)) eqn:Esame; [discriminate|].
  split.
  - intros E. inversion E; subst. rewrite !Z.eqb_refl in Esame. discriminate.
  - exists target. split; [exact Hc|].
    intros t -> Hclr. rewrite Hclr, PieceColor_eqb_refl in H. discriminate.
Qed.

(** X1. A move [isValidMove] accepts never stays on its square and never
    lands on a piece of the mover's color, whatever the piece type. *)
Theorem isValidMove_true_distinct_not_own
  (board : Board) (from to : Square) (piece : ChessPiece) :
  isValidMove board from to piece = Ret true ->
  from <> to
  /\ exists target, cell board (fst to) (snd to) = Ret target
                    /\ notOwn piece target.
Proof.
  apply isValidMove_true_distinct_not_own_aux.
Qed.

Lemma isValidMove_true_distinct_not_own_witness :
  (1, 7) <> ((2, 5) : Square)
  /\ exists target, cell initialBoard 2 5 = Ret target
                    /\ notOwn (mkPiece knight white (1, 7) None "wn1") target.
Proof.
  apply (isValidMove_true_distinct_not_own initialBoard (1, 7) (2, 5)
           (mkPiece knight white (1, 7) None "wn1")).
  reflexivity.
Defined.

(** X2. The pawn rule in full.  A pawn move is accepted exactly when it
    goes straight ahead onto an empty square, by one rank or by two from the
    starting rank, or one step diagonally ahead onto a piece of the other
    color.  A pawn never moves backwards or sideways, never captures
    straight ahead and never moves diagonally onto an empty square. *)
Theorem pawn_move_iff
  (board : Board) (from to : Square) (piece : ChessPiece)
  (target : option ChessPiece) :
  type piece = pawn ->
  cell board (fst to) (snd to) = Ret target ->
  let dx := fst to - fst from in
  let dy := snd to - snd from in
  let direction := pawnDirection (color piece) in
  (isValidMove board from to piece = Ret true <->
   (dx = 0 /\ target = None
    /\ (dy = direction
        \/ (dy = 2 * direction /\ snd from = pawnStartRow (color piece))))
   \/ (Z.abs dx = 1 /\ dy = direction
       /\ exists t, target = Some t /\ color t <> color piece)).
Proof.
  intros Ht Hc dx dy direction. subst dx dy direction.
  unfold isValidMove, isValidMove_with.
  destruct from as [fx fy], to as [tx ty]. cbn [fst snd] in *.
  rewrite Hc, Ht. cbn [bind].
  assert (pawnDirection (color piece) = 1 \/ pawnDirection (color piece) = -1)
    as Hd by (destruct (color piece); simpl; lia).
  remember (pawnDirection (color piece)) as d eqn:Ed.
  remember (pawnStartRow (color piece)) as s0 eqn:Es. clear Ed Es.
  assert (forall t, PieceColor_eqb (color t) (color piece) = false ->
                    color t <> color piece) as Hneq.
  { intros t E Heq. apply PieceColor_eqb_eq in Heq. congruence. }
  destruct (fx =? tx) eqn:E1; destruct (fy =? ty) eqn:E2;
  destruct (tx - fx =? 0) eqn:E3; destruct (ty - fy =? d) eqn:E4;
  destruct (fy =? s0) eqn:E5; destruct (ty - fy =? 2 * d) eqn:E6;
  destruct (Z.abs (tx - fx) =? 1) eqn:E7;
  repeat match goal with
         | H : (_ =? _) = true |- _ => apply Z.eqb_eq in H
         | H : (_ =? _) = false |- _ => apply Z.eqb_neq in H
         end;
  try lia;
  (destruct target as [t|];
   [destruct (PieceColor_eqb (color t) (color piece)) eqn:Eclr;
    [apply PieceColor_eqb_eq in Eclr | apply Hneq in Eclr]|]);
  cbn [andb negb truthy];
  (split;
   [ intros H0; try discriminate H0;
     first [ left; split; [lia | split; [reflexivity
                                        | first [left; lia | right; split; lia]]]
           | right; split; [lia | split; [lia
                                         | eexists; split; [reflexivity
                                                           | assumption]]] ]
   | intros H0; try reflexivity; exfalso;
     destruct H0 as [[? [? [?|[? ?]]]] | [? [? [t0 [? ?]]]]];
     try discriminate; try lia; try congruence ]).
Qed.

Lemma pawn_move_iff_witness :
  isValidMove (board afterE4E5) (4, 4) (4, 3)
    (mkPiece pawn white (4, 4) (Some true) "wp5") = Ret true <->
  (4 - 4 = 0 /\ Some (mkPiece pawn black (4, 3) (Some true) "bp5") = None
   /\ (3 - 4 = -1 \/ (3 - 4 = 2 * -1 /\ 4 = 6)))
  \/ (Z.abs (4 - 4) = 1 /\ 3 - 4 = -1
      /\ exists t, Some (mkPiece pawn black (4, 3) (Some true) "bp5") = Some t
                   /\ color t <> white).
Proof.
  apply (pawn_move_iff (board afterE4E5) (4, 4) (4, 3)
           (mkPiece pawn white (4, 4) (Some true) "wp5")
           (Some (mkPiece pawn black (4, 3) (Some true) "bp5")));
    reflexivity.
Defined.

(** ** Path clearance *)

Lemma isPathClear_loop_S (fuel : nat) (board : Board) (x y dx dy toX toY : Z) :
  isPathClear_loop (S fuel) board x y dx dy toX toY
  = if negb (x =? toX) || negb (y =? toY) then
      c <- cell board x y ;;
      if truthy c then Ret false
      else isPathClear_loop fuel board (x + dx) (y + dy) dx dy toX toY
    else Ret true.
Proof.
  reflexivity.
Qed.

Lemma isPathClear_loop_true_iff (board : Board) (dx dy toX toY : Z) :
  dx <> 0 \/ dy <> 0 ->
  forall (n : nat) (x y : Z),
    toX = x + Z.of_nat n * dx ->
    toY = y + Z.of_nat n * dy ->
    (isPathClear_loop (S n) board x y dx dy toX toY = Ret true <->
     forall j, 0 <= j < Z.of_nat n ->
       cell board (x + j * dx) (y + j * dy) = Ret None).
Proof.
  intros Hd. induction n as [|n IH]; intros x y Hx Hy.
  - cbn [isPathClear_loop].
    replace toX with x by lia. replace toY with y by lia.
    rewrite !Z.eqb_refl. cbn [negb orb].
    split; [intros _ j Hj; lia | reflexivity].
  - rewrite isPathClear_loop_S.
    assert (negb (x =? toX) || negb (y =? toY) = true) as ->.
    { apply orb_true_iff. rewrite Nat2Z.inj_succ in Hx, Hy.
      destruct Hd as [Hd|Hd]; [left|right];
        apply negb_true_iff, Z.eqb_neq; nia. }
    rewrite Nat2Z.inj_succ in *.
    destruct (IH (x + dx) (y + dy)) as [IH1 IH2]; [lia | lia |].
    split.
    + intros H. apply bind_Ret_inv in H. destruct H as [c [Hc H]].
      destruct c as [p|]; [discriminate|]. cbn [truthy] in H.
      pose proof (IH1 H) as Hrest. clear H. rename Hrest into H.
      intros j Hj. destruct (Z.eq_dec j 0) as [->|Hj0].
      * replace (x + 0 * dx) with x by lia.
        replace (y + 0 * dy) with y by lia. exact Hc.
      * specialize (H (j - 1)).
        replace (x + dx + (j - 1) * dx) with (x + j * dx) in H by lia.
        replace (y + dy + (j - 1) * dy) with (y + j * dy) in H by lia.
        apply H. lia.
    + intros H.
      pose proof (H 0) as H0.
      replace (x + 0 * dx) with x in H0 by lia.
      replace (y + 0 * dy) with y in H0 by lia.
      rewrite H0; [|lia]. cbn [bind truthy].
      apply IH2.
      intros j Hj. specialize (H (j + 1)).
      replace (x + dx + j * dx) with (x + (j + 1) * dx) by lia.
      replace (y + dy + j * dy) with (y + (j + 1) * dy) by lia.
      apply H. lia.
Qed.

Lemma distinct_distance_pos (from to : Square) :
  from <> to -> 1 <= distance from to.
Proof.
  destruct from as [fx fy], to as [tx ty]. unfold distance; simpl.
  intros Hne.
  assert (fx <> tx \/ fy <> ty) as D.
  { destruct (Z.eq_dec fx tx); [right | left; assumption].
    intros ->. apply Hne. subst; reflexivity. }
  lia.
Qed.

Lemma isPathClear_exact_true_iff (board : Board) (from to : Square) :
  aligned from to -> from <> to ->
  (isPathClear (Z.to_nat (distance from to)) board from to = Ret true
   <-> pathEmpty board from to).
Proof.
  intros Ha Hne. unfold pathEmpty.
  pose proof (aligned_walk_reaches from to Ha) as Hreach.
  pose proof (distinct_distance_pos from to Hne) as Hpos.
  unfold walkPos in *.
  remember (distance from to) as K eqn:EqK. clear EqK.
  destruct from as [fx fy], to as [tx ty]. cbn [fst snd] in *.
  pose proof (f_equal fst Hreach) as Hx.
  pose proof (f_equal snd Hreach) as Hy.
  cbn [fst snd] in Hx, Hy. clear Hreach.
  destruct (Z.to_nat K) as [|n] eqn:EK; [lia|].
  assert (K = Z.of_nat n + 1) as HK by lia. subst K.
  assert (Z.sgn (tx - fx) <> 0 \/ Z.sgn (ty - fy) <> 0) as Hd.
  { assert (fx <> tx \/ fy <> ty) as D.
    { destruct (Z.eq_dec fx tx); [right | left; assumption].
      intros ->. apply Hne. subst; reflexivity. }
    lia. }
  unfold isPathClear.
  rewrite (isPathClear_loop_true_iff board _ _ tx ty Hd n); [|lia|lia].
  split.
  - intros H i Hi. specialize (H (i - 1)).
    replace (fx + Z.sgn (tx - fx) + (i - 1) * Z.sgn (tx - fx))
      with (fx + i * Z.sgn (tx - fx)) in H by lia.
    replace (fy + Z.sgn (ty - fy) + (i - 1) * Z.sgn (ty - fy))
      with (fy + i * Z.sgn (ty - fy)) in H by lia.
    apply H. lia.
  - intros H j Hj. specialize (H (j + 1)).
    replace (fx + Z.sgn (tx - fx) + j * Z.sgn (tx - fx))
      with (fx + (j + 1) * Z.sgn (tx - fx)) by lia.
    replace (fy + Z.sgn (ty - fy) + j * Z.sgn (ty - fy))
      with (fy + (j + 1) * Z.sgn (ty - fy)) by lia.
    apply H. lia.
Qed.

Lemma isPathClear_budget_true_iff (board : Board) (from to : Square) :
  aligned from to -> from <> to ->
  (isPathClear (walkBudget from to) board from to = Ret true
   <-> pathEmpty board from to).
Proof.
  intros Ha Hne.
  destruct (isPathClear_aligned board from to (walkBudget from to) Ha Hne)
    as [_ ->]; [unfold walkBudget; lia|].
  apply isPathClear_exact_true_iff; assumption.
Qed.

(** X3. On distinct squares sharing a rank, a file or a diagonal, and with
    any budget of at least [distance] steps, [isPathClear] answers [true]
    exactly when every square strictly between the two reads as empty; the
    two end squares are not looked at.  When the ranks involved have rows
    and some square in between is not empty, the answer is [false]. *)
Theorem isPathClear_true_iff_between_empty
  (board : Board) (from to : Square) (fuel : nat) :
  aligned from to -> from <> to ->
  (Z.to_nat (distance from to) <= fuel)%nat ->
  (isPathClear fuel board from to = Ret true <-> pathEmpty board from to)
  /\ (0 <= snd from < Z.of_nat (List.length board) ->
      0 <= snd to < Z.of_nat (List.length board) ->
      ~ pathEmpty board from to ->
      isPathClear fuel board from to = Ret false).
Proof.
  intros Ha Hne Hfuel.
  destruct (isPathClear_aligned board from to fuel Ha Hne Hfuel) as [_ ->].
  split; [apply isPathClear_exact_true_iff; assumption|].
  intros Hf Ht Hblocked.
  destruct (isPathClear_aligned_total board from to Ha Hne Hf Ht) as [b Hb].
  destruct (isPathClear_aligned board from to (walkBudget from to) Ha Hne)
    as [_ E]; [unfold walkBudget; lia|].
  rewrite E in Hb. rewrite Hb. destruct b; [|reflexivity].
  exfalso. apply Hblocked.
  apply isPathClear_exact_true_iff; assumption.
Qed.

Lemma isPathClear_true_iff_between_empty_witness :
  isPathClear 7 initialBoard (0, 7) (0, 3) = Ret false.
Proof.
  assert (aligned (0, 7) (0, 3)) as Ha by (unfold aligned; simpl; lia).
  assert ((0, 7) <> ((0, 3) : Square)) as Hne by discriminate.
  assert (Z.to_nat (distance (0, 7)%Z (0, 3)%Z) <= 7)%nat as Hfuel
    by (unfold distance; simpl; lia).
  destruct (isPathClear_true_iff_between_empty initialBoard (0, 7) (0, 3) 7
              Ha Hne Hfuel) as [_ H].
  apply H; [simpl; lia | simpl; lia |].
  intros Hempty. specialize (Hempty 1). unfold distance in Hempty.
  simpl in Hempty. assert (1 <= 1 < 4) as Hi by lia.
  specialize (Hempty Hi). discriminate Hempty.
Defined.

Lemma slides_aligned (t : PieceType) (from to : Square) :
  slides t from to -> aligned from to.
Proof.
  unfold slides, aligned. destruct t; simpl; tauto.
Qed.

(** X4. Rook, bishop and queen.  Given what the destination holds, the move
    is accepted exactly when the squares differ, the destination does not
    hold a piece of the mover's color, the geometry is the piece's (rank or
    file for the rook, diagonal for the bishop, either for the queen) and
    every square in between is empty: a piece of either color in the way
    blocks the move, and so does a missing rank. *)
Theorem sliding_move_iff
  (board : Board) (from to : Square) (piece : ChessPiece)
  (target : option ChessPiece) :
  type piece = rook \/ type piece = bishop \/ type piece = queen ->
  cell board (fst to) (snd to) = Ret target ->
  (isValidMove board from to piece = Ret true <->
   from <> to /\ notOwn piece target
   /\ slides (type piece) from to /\ pathEmpty board from to).
Proof.
  intros Ht Hc. split.
  - intros H.
    destruct (isValidMove_true_distinct_not_own_aux board from to piece H)
      as [Hne [target' [Hc' Hown]]].
    assert (target' = target) by congruence. subst target'.
    split; [exact Hne|]. split; [exact Hown|].
    revert H. unfold isValidMove, isValidMove_with.
    destruct from as [fx fy], to as [tx ty]. cbn [fst snd] in *.
    rewrite Hc. cbn [bind].
    destruct ((fx =? tx) && (fy =? ty)); [discriminate|].
    match goal with |- (if ?c then _ else _) = _ -> _ => destruct c end;
      [discriminate|].
    unfold slides. cbn [fst snd].
    destruct Ht as [Ht | [Ht | Ht]]; rewrite Ht.
    + destruct ((tx - fx =? 0) || (ty - fy =? 0)) eqn:E; [|discriminate].
      assert (tx - fx = 0 \/ ty - fy = 0) as Hs.
      { apply orb_true_iff in E. destruct E as [E|E]; apply Z.eqb_eq in E; tauto. }
      intros H. split; [exact Hs|].
      apply isPathClear_budget_true_iff in H; [exact H| |exact Hne].
      unfold aligned; cbn [fst snd]. tauto.
    + destruct (Z.abs (tx - fx) =? Z.abs (ty - fy)) eqn:E; [|discriminate].
      apply Z.eqb_eq in E.
      intros H. split; [exact E|].
      apply isPathClear_budget_true_iff in H; [exact H| |exact Hne].
      unfold aligned; cbn [fst snd]. tauto.
    + destruct ((tx - fx =? 0) || (ty - fy =? 0)
                || (Z.abs (tx - fx) =? Z.abs (ty - fy))) eqn:E; [|discriminate].
      assert (tx - fx = 0 \/ ty - fy = 0
              \/ Z.abs (tx - fx) = Z.abs (ty - fy)) as Hs.
      { apply orb_true_iff in E. destruct E as [E|E].
        - apply orb_true_iff in E.
          destruct E as [E|E]; apply Z.eqb_eq in E; tauto.
        - apply Z.eqb_eq in E. tauto. }
      intros H. split; [exact Hs|].
      apply isPathClear_budget_true_iff in H; [exact H| |exact Hne].
      unfold aligned; cbn [fst snd]. tauto.
  - intros [Hne [Hown [Hs Hp]]].
    pose proof (slides_aligned _ _ _ Hs) as Ha.
    apply (isPathClear_budget_true_iff board from to Ha Hne) in Hp.
    unfold isValidMove, isValidMove_with.
    destruct from as [fx fy], to as [tx ty]. cbn [fst snd] in *.
    rewrite Hc. cbn [bind].
    assert ((fx =? tx) && (fy =? ty) = false) as ->.
    { apply andb_false_iff.
      destruct (Z.eq_dec fx tx) as [->|Hx]; [right | left];
        apply Z.eqb_neq; [|exact Hx].
      intros ->. apply Hne; reflexivity. }
    assert (match target with
            | Some t => PieceColor_eqb (color t) (color piece)
            | None => false
            end = false) as ->.
    { destruct target as [t|]; [|reflexivity].
      apply PieceColor_eqb_neq. apply Hown. reflexivity. }
    unfold slides in Hs. cbn [fst snd] in Hs.
    destruct Ht as [Ht | [Ht | Ht]]; rewrite Ht in *.
    + assert ((tx - fx =? 0) || (ty - fy =? 0) = true) as ->; [|exact Hp].
      apply orb_true_iff.
      destruct Hs as [E|E]; [left|right]; apply Z.eqb_eq; exact E.
    + assert ((Z.abs (tx - fx) =? Z.abs (ty - fy)) = true) as ->; [|exact Hp].
      apply Z.eqb_eq; exact Hs.
    + assert ((tx - fx =? 0) || (ty - fy =? 0)
              || (Z.abs (tx - fx) =? Z.abs (ty - fy)) = true) as ->; [|exact Hp].
      rewrite !orb_true_iff, !Z.eqb_eq. tauto.
Qed.

Lemma sliding_move_iff_witness :
  isValidMove (board afterE4E5) (3, 7) (7, 3)
    (mkPiece queen white (3, 7) None "wq") = Ret true.
Proof.
  apply (sliding_move_iff (board afterE4E5) (3, 7) (7, 3)
           (mkPiece queen white (3, 7) None "wq") None).
  - right; right; reflexivity.
  - reflexivity.
  - split; [discriminate|]. split; [intros t Ht; discriminate Ht|].
    split; [unfold slides; simpl; lia|].
    intros i Hi. unfold distance in Hi. simpl in Hi.
    assert (i = 1 \/ i = 2 \/ i = 3) as [-> | [-> | ->]] by lia; reflexivity.
Defined.

(** ** The legal-move list *)

Lemma StronglySorted_NoDup {A : Type} (R : A -> A -> Prop) (l : list A) :
  (forall a, ~ R a a) -> StronglySorted R l -> NoDup l.
Proof.
  intros Hirr. induction 1 as [|a l Hs IH Hall]; constructor; [|exact IH].
  intros Hin. rewrite Forall_forall in Hall. apply (Hirr a), Hall, Hin.
Qed.

Lemma legalDestination_iff (board : Board) (position : Square)
  (piece : ChessPiece) (sq : Square) :
  legalDestination board position piece sq = true <->
  isValidMove board position sq piece = Ret true
  /\ wouldBeInCheck board position sq (color piece) = Ret false.
Proof.
  split; [apply legalDestination_true|].
  intros [H1 H2]. unfold legalDestination. now rewrite H1, H2.
Qed.

(** X5. For a square holding a piece, the list [getValidMoves] returns
    contains exactly the squares of the 8x8 board that [isValidMove]
    accepts and on which [wouldBeInCheck] answers [false]; no square occurs
    twice, the origin never occurs, and no listed square holds a piece of the
    mover's color. *)
Theorem getValidMoves_exact
  (board : Board) (from : Square) (piece : ChessPiece) (moves : list Square) :
  cell board (fst from) (snd from) = Ret (Some piece) ->
  getValidMoves board from = Ret moves ->
  (forall to, In to moves <->
     onBoard to
     /\ isValidMove board from to piece = Ret true
     /\ wouldBeInCheck board from to (color piece) = Ret false)
  /\ NoDup moves
  /\ ~ In from moves
  /\ (forall to, In to moves ->
        exists target, cell board (fst to) (snd to) = Ret target
                       /\ notOwn piece target).
Proof.
  intros Hc Hm.
  pose proof (getValidMoves_filter board from piece moves Hc Hm) as ->.
  assert (forall to, In to (filter (legalDestination board from piece) scanOrder)
            <-> onBoard to
                /\ isValidMove board from to piece = Ret true
                /\ wouldBeInCheck board from to (color piece) = Ret false) as Hiff.
  { intros to. rewrite filter_In, scanOrder_onBoard, legalDestination_iff.
    reflexivity. }
  split; [exact Hiff|]. split; [|split].
  - apply NoDup_filter.
    apply (StronglySorted_NoDup fileMajor); [|exact scanOrder_sorted].
    intros a. unfold fileMajor. lia.
  - intros Hin. apply Hiff in Hin. destruct Hin as [_ [Hv _]].
    apply isValidMove_true_distinct_not_own_aux in Hv.
    destruct Hv as [Hne _]. apply Hne; reflexivity.
  - intros to Hin. apply Hiff in Hin. destruct Hin as [_ [Hv _]].
    apply isValidMove_true_distinct_not_own_aux in Hv. tauto.
Qed.

Lemma getValidMoves_exact_witness :
  In (7, 3) [(4, 6); (5, 5); (6, 4); (7, 3)] <->
  onBoard (7, 3)
  /\ isValidMove (board afterE4E5) (3, 7) (7, 3)
       (mkPiece queen white (3, 7) None "wq") = Ret true
  /\ wouldBeInCheck (board afterE4E5) (3, 7) (7, 3) white = Ret false.
Proof.
  assert (cell (board afterE4E5) (fst ((3, 7) : Square)) (snd ((3, 7) : Square))
          = Ret (Some (mkPiece queen white (3, 7) None "wq"))) as Hc
    by reflexivity.
  assert (getValidMoves (board afterE4E5) (3, 7)
          = Ret [(4, 6); (5, 5); (6, 4); (7, 3)]) as Hm by reflexivity.
  destruct (getValidMoves_exact (board afterE4E5) (3, 7)
              (mkPiece queen white (3, 7) None "wq")
              [(4, 6); (5, 5); (6, 4); (7, 3)] Hc Hm) as [H _].
  exact (H (7, 3)).
Defined.

(** ** Locating the king and detecting check *)

Lemma findM_some_split {A B : Type} (f : A -> outcome (option B))
  (l : list A) (b : B) :
  findM f l = Ret (Some b) ->
  exists l1 a l2, l = l1 ++ a :: l2
                  /\ (forall a', In a' l1 -> f a' = Ret None)
                  /\ f a = Ret (Some b).
Proof.
  induction l as [|a l IH]; simpl; [discriminate|].
  intros H. apply bind_Ret_inv in H. destruct H as [r [Hr Hk]].
  destruct r as [b'|].
  - inversion Hk; subst. exists [], a, l. split; [reflexivity|].
    split; [intros a' []|exact Hr].
  - destruct (IH Hk) as [l1 [a0 [l2 [-> [Hnone Hsome]]]]].
    exists (a :: l1), a0, l2. split; [reflexivity|].
    split; [|exact Hsome].
    intros a' [<-|Hin]; [exact Hr | apply Hnone, Hin].
Qed.

Lemma range8_before (l1 l2 : list Z) (a a' : Z) :
  range8 = l1 ++ a :: l2 -> 0 <= a' < a -> In a' l1.
Proof.
  intros Hsplit Ha'.
  assert (StronglySorted Z.lt range8) as Hs.
  { unfold range8. repeat constructor. }
  assert (In a range8) as Hina.
  { rewrite Hsplit. apply in_or_app. right; left; reflexivity. }
  apply range8_spec in Hina.
  assert (In a' range8) as Hin by (apply range8_spec; lia).
  rewrite Hsplit in Hin, Hs. apply in_app_or in Hin.
  destruct Hin as [Hin | [-> | Hin]]; [exact Hin | lia |].
  exfalso. clear Hsplit Hina.
  induction l1 as [|b l1 IH]; simpl in Hs.
  - inversion Hs as [|? ? _ Hall]; subst.
    rewrite Forall_forall in Hall. specialize (Hall a' Hin). lia.
  - inversion Hs; subst. apply IH; assumption.
Qed.

(** X6. When [findKing] finds a square, that square is on the 8x8 board
    and holds a king of the color, and it is the first such square in the
    scan by rank and then by file: every square before it was read without
    error and holds no king of the color.  With several kings the one on the
    lowest rank index wins. *)
Theorem findKing_first_in_scan
  (board : Board) (clr : PieceColor) (kingPos : Square) :
  findKing board clr = Ret (Some kingPos) ->
  onBoard kingPos
  /\ (exists piece, cell board (fst kingPos) (snd kingPos) = Ret (Some piece)
                    /\ type piece = king /\ color piece = clr)
  /\ (forall sq, onBoard sq -> rankMajor sq kingPos ->
        exists c, cell board (fst sq) (snd sq) = Ret c
                  /\ isKingOf clr c = false).
Proof.
  unfold findKing. intros H.
  apply findM_some_split in H.
  destruct H as [ys1 [y [ys2 [Hys [Hrows Hrow]]]]].
  apply findM_some_split in Hrow.
  destruct Hrow as [xs1 [x [xs2 [Hxs [Hcells Hcell]]]]].
  apply bind_Ret_inv in Hcell. destruct Hcell as [c [Hc Hk]].
  destruct (isKingOf clr c) eqn:Eking; inversion Hk; subst kingPos. clear Hk.
  cbn [fst snd].
  assert (In x range8) as Hx.
  { rewrite Hxs. apply in_or_app. right; left; reflexivity. }
  assert (In y range8) as Hy.
  { rewrite Hys. apply in_or_app. right; left; reflexivity. }
  apply range8_spec in Hx, Hy.
  split; [split; assumption|]. split.
  - destruct c as [piece|]; [|discriminate].
    exists piece. split; [exact Hc|].
    simpl in Eking. apply andb_true_iff in Eking. destruct Eking as [E1 E2].
    apply PieceColor_eqb_eq in E2. split; [|exact E2].
    destruct (type piece); try discriminate; reflexivity.
  - intros [x' y'] [Hx' Hy'] Hbefore. unfold rankMajor in Hbefore.
    cbn [fst snd] in *.
    assert (forall r, (piece <- cell board x' y' ;;
                       if isKingOf clr piece then Ret (Some (x', y'))
                       else Ret None) = Ret r -> r = None ->
                      exists c', cell board x' y' = Ret c'
                                 /\ isKingOf clr c' = false) as Hstep.
    { intros r Hr ->. apply bind_Ret_inv in Hr. destruct Hr as [c' [Hc' Hr]].
      exists c'. split; [exact Hc'|].
      destruct (isKingOf clr c'); [discriminate | reflexivity]. }
    destruct Hbefore as [Hlt | [-> Hlt]].
    + assert (In y' ys1) as Hin by (apply (range8_before ys1 ys2 y); [exact Hys | lia]).
      specialize (Hrows y' Hin).
      assert (In x' range8) as Hinx by (apply range8_spec; exact Hx').
      clear - Hrows Hinx Hstep.
      induction range8 as [|x0 l IH]; [destruct Hinx|].
      simpl in Hrows. apply bind_Ret_inv in Hrows.
      destruct Hrows as [r [Hr Hk]].
      destruct r as [b|]; [discriminate|].
      destruct Hinx as [->|Hinx]; [eapply Hstep; [exact Hr | reflexivity]|].
      apply IH; assumption.
    + assert (In x' xs1) as Hin by (apply (range8_before xs1 xs2 x); [exact Hxs | lia]).
      specialize (Hcells x' Hin). eapply Hstep; [exact Hcells | reflexivity].
Qed.

Lemma findKing_first_in_scan_witness :
  onBoard (6, 2)
  /\ (exists piece, cell twoKingsBoard 6 2 = Ret (Some piece)
                    /\ type piece = king /\ color piece = white)
  /\ (forall sq, onBoard sq -> rankMajor sq (6, 2) ->
        exists c, cell twoKingsBoard (fst sq) (snd sq) = Ret c
                  /\ isKingOf white c = false).
Proof.
  apply (findKing_first_in_scan twoKingsBoard white (6, 2)). reflexivity.
Defined.

Lemma anyM_true_intro {A : Type} (f : A -> outcome bool) (l : list A) :
  (forall a, In a l -> exists b, f a = Ret b) ->
  (exists a, In a l /\ f a = Ret true) ->
  anyM f l = Ret true.
Proof.
  induction l as [|a l IH]; simpl; intros Htot [a0 [Hin Ha0]]; [destruct Hin|].
  destruct (Htot a (or_introl eq_refl)) as [b Hb]. rewrite Hb. cbn [bind].
  destruct b; [reflexivity|].
  apply IH.
  - intros a' Hin'. apply Htot. right; exact Hin'.
  - destruct Hin as [<-|Hin]; [congruence|]. exists a0. split; assumption.
Qed.

(** X7. On a board with its eight ranks, [isInCheck] answers [true]
    exactly when [findKing] finds the color's king and some square of the
    8x8 board holds a piece of the other color for which [isValidMove]
    accepts the move onto the king's square. *)
Theorem isInCheck_iff_attacked (board : Board) (clr : PieceColor) :
  hasRanks board ->
  (isInCheck board clr = Ret true <->
   exists kingPos, findKing board clr = Ret (Some kingPos)
     /\ exists sq piece,
          onBoard sq
          /\ cell board (fst sq) (snd sq) = Ret (Some piece)
          /\ color piece = opponent clr
          /\ isValidMove board sq kingPos piece = Ret true).
Proof.
  intros Hr. unfold isInCheck. split.
  - intros H. apply bind_Ret_inv in H. destruct H as [kp [Hkp H]].
    destruct kp as [kingPos|]; [|discriminate].
    exists kingPos. split; [exact Hkp|].
    apply anyM_true_inv in H. destruct H as [y [Hy H]].
    apply anyM_true_inv in H. destruct H as [x [Hx H]].
    apply range8_spec in Hx, Hy.
    apply bind_Ret_inv in H. destruct H as [c [Hc H]].
    destruct c as [piece|]; [|discriminate].
    destruct (PieceColor_eqb (color piece) (opponent clr)) eqn:E;
      [|discriminate].
    apply PieceColor_eqb_eq in E.
    exists (x, y), piece.
    split; [split; assumption|]. repeat split; assumption.
  - intros [kingPos [Hkp [[x y] [piece [[Hx Hy] [Hc [Hclr Hv]]]]]]].
    cbn [fst snd] in *. rewrite Hkp. cbn [bind].
    destruct (findKing_total board clr Hr) as [r [Hr' Hon]].
    assert (r = Some kingPos) by congruence. subst r.
    destruct (Hon kingPos eq_refl) as [_ Hky].
    assert (forall x0 y0, 0 <= y0 <= 7 ->
              exists b,
                (piece0 <- cell board x0 y0 ;;
                 match piece0 with
                 | Some piece0 =>
                     if PieceColor_eqb (color piece0) (opponent clr)
                     then isValidMove board (x0, y0) kingPos piece0
                     else Ret false
                 | None => Ret false
                 end) = Ret b) as Htot.
    { intros x0 y0 Hy0.
      destruct (cell_total_ranks board x0 y0 Hr Hy0) as [c ->]. cbn [bind].
      destruct c as [p|]; [|eauto].
      destruct (PieceColor_eqb (color p) (opponent clr)); [|eauto].
      unfold hasRanks in Hr. apply isValidMove_total; simpl; lia. }
    apply anyM_true_intro.
    + intros y0 Hy0. apply range8_spec in Hy0.
      apply anyM_total. intros x0 _. apply Htot. exact Hy0.
    + exists y. split; [apply range8_spec; exact Hy|].
      apply anyM_true_intro.
      * intros x0 _. apply Htot. exact Hy.
      * exists x. split; [apply range8_spec; exact Hx|].
        rewrite Hc. cbn [bind]. rewrite Hclr, PieceColor_eqb_refl. exact Hv.
Qed.

Lemma isInCheck_iff_attacked_witness :
  isInCheck (board foolsMate) white = Ret true <->
  exists kingPos, findKing (board foolsMate) white = Ret (Some kingPos)
    /\ exists sq piece,
         onBoard sq
         /\ cell (board foolsMate) (fst sq) (snd sq) = Ret (Some piece)
         /\ color piece = opponent white
         /\ isValidMove (board foolsMate) sq kingPos piece = Ret true.
Proof.
  apply (isInCheck_iff_attacked (board foolsMate) white).
  unfold hasRanks. simpl. lia.
Defined.

(** ** Writing a cell and reading it back *)

Lemma nth_error_replace {A : Type} (v : A) (l : list A) :
  forall n m, (n < List.length l)%nat ->
    nth_error (firstn n l ++ v :: skipn (S n) l) m
    = if (m =? n)%nat then Some v else nth_error l m.
Proof.
  induction l as [|a l IH]; intros n m Hn; simpl in Hn; [lia|].
  destruct n as [|n], m as [|m]; simpl; try reflexivity.
  apply IH. lia.
Qed.

Lemma nth_error_extend {A : Type} (hole v : A) (l : list A) (k m : nat) :
  nth_error (l ++ repeat hole k ++ [v]) m
  = if (m <? List.length l)%nat then nth_error l m
    else if (m <? List.length l + k)%nat then Some hole
    else if (m =? List.length l + k)%nat then Some v
    else None.
Proof.
  revert m. induction l as [|a l IH]; intros m.
  - simpl. revert m. induction k as [|k IHk]; intros m; simpl.
    + destruct m as [|m]; simpl; [reflexivity|]. now destruct m.
    + destruct m as [|m]; simpl; [reflexivity|]. apply IHk.
  - destruct m as [|m]; simpl; [reflexivity|]. apply IH.
Qed.

Lemma index_store_same {A : Type} (hole v : A) (arr : list A) (i : Z) :
  0 <= i -> index (store hole arr i v) i = Some v.
Proof.
  intros Hi. unfold index, store.
  destruct (i <? 0) eqn:E; [apply Z.ltb_lt in E; lia|].
  destruct (Z.to_nat i <? List.length arr)%nat eqn:En.
  - apply Nat.ltb_lt in En. rewrite nth_error_replace by exact En.
    now rewrite Nat.eqb_refl.
  - pose proof (proj1 (Nat.ltb_ge _ _) En) as Hge.
    rewrite nth_error_extend, En.
    replace (List.length arr + (Z.to_nat i - List.length arr))%nat
      with (Z.to_nat i) by lia.
    now rewrite Nat.ltb_irrefl, Nat.eqb_refl.
Qed.

(** Elsewhere the array reads as before, a hole standing for no element. *)
Lemma index_store_other {A : Type} (hole v : A) (arr : list A) (i j : Z) :
  j <> i ->
  match index (store hole arr i v) j with Some a => a | None => hole end
  = match index arr j with Some a => a | None => hole end.
Proof.
  intros Hne. unfold index, store.
  destruct (j <? 0) eqn:Ej; [reflexivity|]. apply Z.ltb_ge in Ej.
  destruct (i <? 0) eqn:Ei; [reflexivity|]. apply Z.ltb_ge in Ei.
  destruct (Z.to_nat i <? List.length arr)%nat eqn:En.
  - apply Nat.ltb_lt in En. rewrite nth_error_replace by exact En.
    destruct (Z.to_nat j =? Z.to_nat i)%nat eqn:E; [|reflexivity].
    apply Nat.eqb_eq in E. lia.
  - apply Nat.ltb_ge in En. rewrite nth_error_extend.
    destruct (Z.to_nat j <? List.length arr)%nat eqn:E1; [reflexivity|].
    apply Nat.ltb_ge in E1.
    assert (nth_error arr (Z.to_nat j) = None) as -> by (apply nth_error_None; lia).
    destruct (Z.to_nat j <? List.length arr + (Z.to_nat i - List.length arr))%nat;
      [reflexivity|].
    destruct (Z.to_nat j =? List.length arr + (Z.to_nat i - List.length arr))%nat
      eqn:E3; [|reflexivity].
    apply Nat.eqb_eq in E3. lia.
Qed.

Lemma index_store_other_inside {A : Type} (hole v : A) (arr : list A) (i j : Z) :
  0 <= i < Z.of_nat (List.length arr) -> j <> i ->
  index (store hole arr i v) j = index arr j.
Proof.
  intros Hi Hne. unfold index, store.
  destruct (j <? 0) eqn:Ej; [reflexivity|]. apply Z.ltb_ge in Ej.
  destruct (i <? 0) eqn:Ei; [reflexivity|].
  assert ((Z.to_nat i <? List.length arr)%nat = true) as ->
    by (apply Nat.ltb_lt; lia).
  rewrite nth_error_replace by lia.
  destruct (Z.to_nat j =? Z.to_nat i)%nat eqn:E; [|reflexivity].
  apply Nat.eqb_eq in E. lia.
Qed.

Lemma cell_as_default (board : Board) (x y : Z) (row : list (option ChessPiece)) :
  index board y = Some row ->
  cell board x y = Ret (match index row x with Some c => c | None => None end).
Proof.
  intros H. unfold cell. rewrite H. destruct (index row x); reflexivity.
Qed.

Lemma index_Some_inside {A : Type} (arr : list A) (i : Z) (a : A) :
  index arr i = Some a -> 0 <= i < Z.of_nat (List.length arr).
Proof.
  unfold index. destruct (i <? 0) eqn:E; [discriminate|].
  apply Z.ltb_ge in E. intros H.
  assert (nth_error arr (Z.to_nat i) <> None) as Hn by congruence.
  apply nth_error_Some in Hn. lia.
Qed.

Lemma cell_setCell_same (board b' : Board) (x y : Z) (v : option ChessPiece) :
  setCell board x y v = Ret b' -> 0 <= x -> cell b' x y = Ret v.
Proof.
  unfold setCell. destruct (index board y) as [row|] eqn:Hrow; [|discriminate].
  intros H Hx. inversion H; subst b'. clear H.
  pose proof (index_Some_inside _ _ _ Hrow) as Hy.
  rewrite (cell_as_default _ x y (store None row x v)).
  - now rewrite index_store_same.
  - apply index_store_same. lia.
Qed.

Lemma cell_setCell_other (board b' : Board) (x y x' y' : Z)
  (v : option ChessPiece) :
  setCell board x y v = Ret b' -> (x', y') <> (x, y) ->
  cell b' x' y' = cell board x' y'.
Proof.
  unfold setCell. destruct (index board y) as [row|] eqn:Hrow; [|discriminate].
  intros H Hne. inversion H; subst b'. clear H.
  pose proof (index_Some_inside _ _ _ Hrow) as Hy.
  destruct (Z.eq_dec y' y) as [->|Hy'].
  - assert (x' <> x) as Hx' by (intros ->; apply Hne; reflexivity).
    rewrite (cell_as_default _ x' y (store None row x v))
      by (apply index_store_same; lia).
    rewrite (cell_as_default _ x' y row) by exact Hrow.
    now rewrite index_store_other.
  - unfold cell. now rewrite index_store_other_inside.
Qed.

(** X8. The hypothetical board of [wouldBeInCheck], for distinct squares
    with non-negative file indices: the destination holds what stood on
    the origin, the origin is empty, and every other cell reads as on the
    board it was copied from. *)
Theorem movedBoard_cells
  (board : Board) (from to : Square) (hypothetical : Board) :
  movedBoard board from to = Ret hypothetical ->
  0 <= fst from -> 0 <= fst to -> from <> to ->
  exists piece,
    cell board (fst from) (snd from) = Ret piece
    /\ cell hypothetical (fst to) (snd to) = Ret piece
    /\ cell hypothetical (fst from) (snd from) = Ret None
    /\ (forall sq, sq <> from -> sq <> to ->
          cell hypothetical (fst sq) (snd sq) = cell board (fst sq) (snd sq)).
Proof.
  unfold movedBoard. intros H Hf Ht Hne.
  apply bind_Ret_inv in H. destruct H as [piece [Hc H]].
  apply bind_Ret_inv in H. destruct H as [b1 [Hb1 Hb2]].
  exists piece. split; [exact Hc|].
  destruct from as [fx fy], to as [tx ty]. cbn [fst snd] in *.
  split; [|split].
  - rewrite (cell_setCell_other b1 hypothetical fx fy tx ty None Hb2).
    + apply (cell_setCell_same board b1 tx ty piece Hb1 Ht).
    + intros E. apply Hne. now inversion E.
  - apply (cell_setCell_same b1 hypothetical fx fy None Hb2 Hf).
  - intros [sx sy] Hs1 Hs2. cbn [fst snd].
    rewrite (cell_setCell_other b1 hypothetical fx fy sx sy None Hb2 Hs1).
    apply (cell_setCell_other board b1 tx ty sx sy piece Hb1 Hs2).
Qed.

Lemma movedBoard_cells_witness :
  exists hypothetical piece,
    movedBoard initialBoard (4, 6) (4, 4) = Ret hypothetical
    /\ cell initialBoard 4 6 = Ret piece
    /\ cell hypothetical 4 4 = Ret piece
    /\ cell hypothetical 4 6 = Ret None.
Proof.
  destruct (movedBoard_total initialBoard (4, 6) (4, 4)) as [hb [Hm _]];
    [simpl; lia | simpl; lia |].
  destruct (movedBoard_cells initialBoard (4, 6) (4, 4) hb Hm)
    as [piece [H1 [H2 [H3 _]]]];
    [simpl; lia | simpl; lia | discriminate |].
  exists hb, piece. repeat split; assumption.
Defined.

(** * Further properties of the coordinator *)

Lemma existsb_square_In (x y : Z) (moves : list Square) :
  existsb (fun m => (fst m =? x) && (snd m =? y)) moves = true
  <-> In (x, y) moves.
Proof.
  rewrite existsb_exists. split.
  - intros [[mx my] [Hin Hm]]. cbn [fst snd] in Hm.
    apply andb_true_iff in Hm. destruct Hm as [E1 E2].
    apply Z.eqb_eq in E1, E2. now subst.
  - intros Hin. exists (x, y). split; [exact Hin|].
    cbn [fst snd]. now rewrite !Z.eqb_refl.
Qed.

Lemma reselect_cases (st st' : GameState) (piece : option ChessPiece)
  (x y : Z) :
  cell (board st) x y = Ret piece ->
  reselect st piece x y = Ret st' ->
  st' = deselect st
  \/ ((exists p, cell (board st) x y = Ret (Some p)
                 /\ color p = currentPlayer st)
      /\ select st x y = Ret st').
Proof.
  intros Hc. unfold reselect.
  destruct piece as [p|]; [|intros H; inversion H; left; reflexivity].
  destruct (PieceColor_eqb (color p) (currentPlayer st)) eqn:E.
  - apply PieceColor_eqb_eq in E. intros H. right. split; [eauto | exact H].
  - intros H; inversion H; left; reflexivity.
Qed.

(** The four ways the click handler can end normally. *)
Lemma handleSquareClick_cases (st st' : GameState) (x y : Z) :
  handleSquareClick st x y = Ret st' ->
  st' = st
  \/ st' = deselect st
  \/ ((exists p, cell (board st) x y = Ret (Some p)
                 /\ color p = currentPlayer st)
      /\ select st x y = Ret st')
  \/ acceptedMove st x y st'.
Proof.
  unfold handleSquareClick. intros H.
  destruct (GameStatus_eqb (gameStatus st) checkmate);
    [inversion H; left; reflexivity|].
  apply bind_Ret_inv in H. destruct H as [piece [Hc H]].
  destruct (selectedPiece st) as [[selX selY]|] eqn:Hsel.
  - destruct ((selX =? x) && (selY =? y)) eqn:Esame;
      [inversion H; right; left; reflexivity|].
    assert ((selX, selY) <> (x, y)) as Hne.
    { intros E. inversion E; subst. rewrite !Z.eqb_refl in Esame. discriminate. }
    match type of H with
    | (if ?c then _ else _) = _ => destruct c eqn:Evalid
    end;
      [|destruct (reselect_cases st st' piece x y Hc H) as [E|E]; tauto].
    apply existsb_square_In in Evalid.
    apply bind_Ret_inv in H. destruct H as [moving [Hm H]].
    apply bind_Ret_inv in H. destruct H as [captured [Hcap H]].
    destruct moving as [m|];
      [|destruct (reselect_cases st st' piece x y Hc H) as [E|E]; tauto].
    apply bind_Ret_inv in H. destruct H as [b1 [Hb1 H]].
    apply bind_Ret_inv in H. destruct H as [b2 [Hb2 H]].
    inversion H. right; right; right.
    exists (selX, selY), m, captured, b1, b2.
    cbn [fst snd]. unfold movedPiece. repeat split; assumption.
  - destruct piece as [p|]; [|inversion H; left; reflexivity].
    destruct (PieceColor_eqb (color p) (currentPlayer st)) eqn:E.
    + apply PieceColor_eqb_eq in E. right; right; left.
      split; [eauto | exact H].
    + inversion H; left; reflexivity.
Qed.

(** X9. Accepting a move.  With a piece selected, an activation of another
    square listed in [validMoves] moves the piece: afterwards the
    destination holds it with [position] updated and [hasMoved] set, the
    origin is empty, every other cell is as before, the turn passes to the
    other player, the selection is cleared, the notation of the move is
    appended to the log, and what stood on the destination, if anything, is
    appended to the captured pieces. *)
Theorem accepted_move_effect
  (st : GameState) (sel : Square) (x y : Z)
  (moving : ChessPiece) (captured : option ChessPiece) :
  gameStatus st <> checkmate ->
  selectedPiece st = Some sel ->
  sel <> (x, y) ->
  In (x, y) (validMoves st) ->
  cell (board st) (fst sel) (snd sel) = Ret (Some moving) ->
  cell (board st) x y = Ret captured ->
  0 <= x ->
  exists st',
    handleSquareClick st x y = Ret st'
    /\ cell (board st') x y = Ret (Some (movedPiece moving x y))
    /\ cell (board st') (fst sel) (snd sel) = Ret None
    /\ (forall sq, sq <> sel -> sq <> (x, y) ->
          cell (board st') (fst sq) (snd sq) = cell (board st) (fst sq) (snd sq))
    /\ currentPlayer st' = opponent (currentPlayer st)
    /\ selectedPiece st' = None
    /\ validMoves st' = []
    /\ gameStatus st' = gameStatus st
    /\ moveHistory st'
       = moveHistory st ++ [formatMove sel (x, y) moving captured]
    /\ capturedPieces st'
       = match captured with
         | Some c => capturedPieces st ++ [c]
         | None => capturedPieces st
         end.
Proof.
  intros Hstat Hsel Hne Hin Hm Hcap Hx.
  destruct sel as [selX selY]. cbn [fst snd] in *.
  assert (0 <= selX) as HselX.
  { unfold cell in Hm. destruct (index (board st) selY); [|discriminate].
    destruct (index l selX) eqn:E; [|discriminate].
    apply index_Some_inside in E. lia. }
  destruct (setCell_total (board st) x y (Some (movedPiece moving x y)))
    as [b1 [Hb1 L1]]; [eapply cell_Ret_row; exact Hcap|].
  destruct (setCell_total b1 selX selY None) as [b2 [Hb2 L2]].
  { apply cell_Ret_row in Hm. lia. }
  eexists. split.
  - unfold handleSquareClick.
    assert (GameStatus_eqb (gameStatus st) checkmate = false) as ->.
    { destruct (GameStatus_eqb (gameStatus st) checkmate) eqn:E; [|reflexivity].
      apply GameStatus_eqb_eq in E. contradiction. }
    rewrite Hcap. cbn [bind]. rewrite Hsel.
    assert ((selX =? x) && (selY =? y) = false) as ->.
    { apply andb_false_iff.
      destruct (Z.eq_dec selX x) as [->|Hx']; [right | left];
        apply Z.eqb_neq; [|exact Hx'].
      intros ->. apply Hne; reflexivity. }
    rewrite (proj2 (existsb_square_In x y (validMoves st)) Hin).
    rewrite Hm. cbn [bind].
    unfold movedPiece in Hb1. rewrite Hb1. cbn [bind].
    rewrite Hb2. cbn [bind]. reflexivity.
  - cbn [board currentPlayer selectedPiece validMoves gameStatus
         moveHistory capturedPieces].
    split; [|split; [|split]].
    + rewrite (cell_setCell_other b1 b2 selX selY x y None Hb2).
      * apply (cell_setCell_same (board st) b1 x y _ Hb1 Hx).
      * intros E. apply Hne. now inversion E.
    + apply (cell_setCell_same b1 b2 selX selY None Hb2 HselX).
    + intros [sx sy] Hs1 Hs2. cbn [fst snd].
      rewrite (cell_setCell_other b1 b2 selX selY sx sy None Hb2 Hs1).
      apply (cell_setCell_other (board st) b1 x y sx sy _ Hb1 Hs2).
    + repeat split; reflexivity.
Qed.

Lemma accepted_move_effect_witness :
  exists st',
    handleSquareClick
      (mkState initialBoard white (Some (4, 6)) [(4, 4); (4, 5)] playing [] [])
      4 4 = Ret st'
    /\ cell (board st') 4 4
       = Ret (Some (mkPiece pawn white (4, 4) (Some true) "wp5"))
    /\ cell (board st') 4 6 = Ret None
    /\ currentPlayer st' = black
    /\ moveHistory st' = ["e4"%string].
Proof.
  destruct (accepted_move_effect
              (mkState initialBoard white (Some (4, 6)) [(4, 4); (4, 5)]
                       playing [] [])
              (4, 6) 4 4 (mkPiece pawn white (4, 6) None "wp5") None)
    as [st' [H [H1 [H2 [_ [H3 [_ [_ [_ [H4 _]]]]]]]]]].
  - discriminate.
  - reflexivity.
  - discriminate.
  - simpl. tauto.
  - reflexivity.
  - reflexivity.
  - lia.
  - exists st'. repeat split; assumption.
Defined.

(** ** Frame of a transition *)

Lemma select_fields (st st' : GameState) (x y : Z) :
  select st x y = Ret st' ->
  board st' = board st /\ currentPlayer st' = currentPlayer st
  /\ gameStatus st' = gameStatus st
  /\ capturedPieces st' = capturedPieces st
  /\ moveHistory st' = moveHistory st
  /\ selectedPiece st' = Some (x, y)
  /\ getValidMoves (board st) (x, y) = Ret (validMoves st').
Proof.
  unfold select. intros H. apply bind_Ret_inv in H.
  destruct H as [moves [Hm H]]. inversion H; subst st'. simpl.
  repeat split; try reflexivity. exact Hm.
Qed.

Lemma useEffect_status_fields (st st' : GameState) :
  useEffect_status st = Ret st' ->
  board st' = board st /\ currentPlayer st' = currentPlayer st
  /\ selectedPiece st' = selectedPiece st
  /\ validMoves st' = validMoves st
  /\ capturedPieces st' = capturedPieces st
  /\ moveHistory st' = moveHistory st
  /\ newStatus (board st) (currentPlayer st) = Ret (gameStatus st').
Proof.
  unfold useEffect_status. intros H. apply bind_Ret_inv in H.
  destruct H as [status [Hs H]].
  destruct (GameStatus_eqb status (gameStatus st)) eqn:E; cbn [negb] in H;
    inversion H; subst st'; simpl; repeat split; try reflexivity.
  - apply GameStatus_eqb_eq in E. congruence.
  - exact Hs.
Qed.

(** X10. A transition of the click handler is of one of two kinds.  Either
    it leaves the board, the player to move, the status, the move log and
    the captured pieces untouched (only the selection may change), or it is
    an accepted move: the turn passes to the other player, exactly one
    entry is appended to the log, at most one piece to the captured ones,
    and the selection is cleared. *)
Theorem handleSquareClick_frame (st st' : GameState) (x y : Z) :
  handleSquareClick st x y = Ret st' ->
  gameStatus st' = gameStatus st
  /\ ((board st' = board st
       /\ currentPlayer st' = currentPlayer st
       /\ moveHistory st' = moveHistory st
       /\ capturedPieces st' = capturedPieces st)
      \/ (currentPlayer st' = opponent (currentPlayer st)
          /\ selectedPiece st' = None /\ validMoves st' = []
          /\ (exists entry, moveHistory st' = moveHistory st ++ [entry])
          /\ (capturedPieces st' = capturedPieces st
              \/ exists c, capturedPieces st' = capturedPieces st ++ [c]))).
Proof.
  intros H. apply handleSquareClick_cases in H.
  destruct H as [-> | [-> | [[_ H] | H]]].
  - split; [reflexivity|]. left. repeat split; reflexivity.
  - split; [reflexivity|]. left. repeat split; reflexivity.
  - apply select_fields in H. split; [tauto|]. left. tauto.
  - destruct H as [sel [moving [captured [b1 [b2 H]]]]].
    destruct H as [_ [_ [_ [_ [_ [_ [_ ->]]]]]]]. simpl.
    split; [reflexivity|]. right.
    split; [reflexivity|]. split; [reflexivity|]. split; [reflexivity|].
    split; [eauto|].
    destruct captured as [c|]; [right; eauto | left; reflexivity].
Qed.

Lemma handleSquareClick_frame_witness :
  gameStatus afterE4E5 = gameStatus afterE4E5
  /\ ((board afterE4E5 = board afterE4E5
       /\ currentPlayer afterE4E5 = currentPlayer afterE4E5
       /\ moveHistory afterE4E5 = moveHistory afterE4E5
       /\ capturedPieces afterE4E5 = capturedPieces afterE4E5)
      \/ (currentPlayer afterE4E5 = opponent (currentPlayer afterE4E5)
          /\ selectedPiece afterE4E5 = None /\ validMoves afterE4E5 = []
          /\ (exists entry,
                moveHistory afterE4E5 = moveHistory afterE4E5 ++ [entry])
          /\ (capturedPieces afterE4E5 = capturedPieces afterE4E5
              \/ exists c,
                   capturedPieces afterE4E5
                   = capturedPieces afterE4E5 ++ [c]))).
Proof.
  apply (handleSquareClick_frame afterE4E5 afterE4E5 3 3). reflexivity.
Defined.

(** ** Invariants of the reachable states *)

Lemma replace_length {A : Type} (v : A) (l : list A) :
  forall n, (n < List.length l)%nat ->
    List.length (firstn n l ++ v :: skipn (S n) l) = List.length l.
Proof.
  induction l as [|a l IH]; intros n Hn; simpl in Hn; [lia|].
  destruct n as [|n]; simpl; [reflexivity|].
  f_equal. apply IH. lia.
Qed.

Lemma Forall_replace {A : Type} (Q : A -> Prop) (v : A) (l : list A) :
  Forall Q l -> Q v ->
  forall n, Forall Q (firstn n l ++ v :: skipn (S n) l).
Proof.
  intros Hl Hv. induction Hl as [|a l Ha Hl IH]; intros n.
  - destruct n; simpl; constructor; (exact Hv || constructor).
  - destruct n as [|n]; simpl.
    + constructor; assumption.
    + constructor; [exact Ha | apply IH].
Qed.

Lemma list_sum_map_replace {A : Type} (f : A -> nat) (v d : A) (l : list A) :
  forall n, (n < List.length l)%nat ->
    (list_sum (map f (firstn n l ++ v :: skipn (S n) l)) + f (nth n l d)
     = list_sum (map f l) + f v)%nat.
Proof.
  induction l as [|a l IH]; intros n Hn; simpl in Hn; [lia|].
  destruct n as [|n].
  - simpl. lia.
  - specialize (IH n ltac:(lia)).
    change (firstn (S n) (a :: l)) with (a :: firstn n l).
    change (skipn (S (S n)) (a :: l)) with (skipn (S n) l).
    change (nth (S n) (a :: l) d) with (nth n l d).
    cbn [app map].
    change (list_sum (f a :: ?t)) with (f a + list_sum t)%nat.
    unfold list_sum in *. cbn [fold_right]. lia.
Qed.

Lemma store_inside {A : Type} (hole v : A) (arr : list A) (i : Z) :
  0 <= i < Z.of_nat (List.length arr) ->
  store hole arr i v
  = firstn (Z.to_nat i) arr ++ v :: skipn (S (Z.to_nat i)) arr.
Proof.
  intros Hi. unfold store.
  destruct (i <? 0) eqn:E; [apply Z.ltb_lt in E; lia|].
  assert ((Z.to_nat i <? List.length arr)%nat = true) as ->
    by (apply Nat.ltb_lt; lia).
  reflexivity.
Qed.

Lemma index_nth {A : Type} (arr : list A) (i : Z) (a d : A) :
  index arr i = Some a -> nth (Z.to_nat i) arr d = a.
Proof.
  unfold index. destruct (i <? 0); [discriminate|].
  intros H. now apply nth_error_nth.
Qed.

Lemma index_In {A : Type} (arr : list A) (i : Z) (a : A) :
  index arr i = Some a -> In a arr.
Proof.
  unfold index. destruct (i <? 0); [discriminate|]. apply nth_error_In.
Qed.

Lemma grid8_cell_onBoard (b : Board) (x y : Z) (p : ChessPiece) :
  grid8 b -> cell b x y = Ret (Some p) -> onBoard (x, y).
Proof.
  intros [Hlen Hrows] H. unfold cell in H.
  destruct (index b y) as [row|] eqn:Hrow; [|discriminate].
  destruct (index row x) as [c|] eqn:Hc; [|discriminate].
  apply index_Some_inside in Hc.
  pose proof (index_In _ _ _ Hrow) as Hin.
  apply index_Some_inside in Hrow.
  rewrite Forall_forall in Hrows. rewrite (Hrows row Hin) in Hc.
  unfold onBoard; cbn [fst snd]. lia.
Qed.

Lemma grid8_setCell (b b' : Board) (x y : Z) (v : option ChessPiece) :
  grid8 b -> onBoard (x, y) -> setCell b x y v = Ret b' -> grid8 b'.
Proof.
  intros [Hlen Hrows] [Hx Hy] H. cbn [fst snd] in *. unfold setCell in H.
  destruct (index b y) as [row|] eqn:Hrow; [|discriminate].
  inversion H; subst b'. clear H.
  pose proof (index_In _ _ _ Hrow) as Hin.
  assert (List.length row = 8%nat) as Hr.
  { rewrite Forall_forall in Hrows. apply Hrows, Hin. }
  rewrite (store_inside [] _ b y) by lia.
  rewrite (store_inside None v row x) by lia.
  split.
  - rewrite replace_length; [exact Hlen | lia].
  - apply Forall_replace; [exact Hrows|].
    rewrite replace_length; [exact Hr | lia].
Qed.

Lemma occupied_sum (row : list (option ChessPiece)) :
  countRow row = list_sum (map occupied row).
Proof.
  unfold countRow, occupied.
  induction row as [|c row IH]; simpl; [reflexivity|].
  destruct (truthy c); simpl; now rewrite IH.
Qed.

Lemma countPieces_setCell (b b' : Board) (x y : Z)
  (old v : option ChessPiece) :
  grid8 b -> onBoard (x, y) ->
  cell b x y = Ret old -> setCell b x y v = Ret b' ->
  (countPieces b' + occupied old = countPieces b + occupied v)%nat.
Proof.
  intros [Hlen Hrows] [Hx Hy] Hold H. cbn [fst snd] in *.
  unfold setCell in H. unfold cell in Hold.
  destruct (index b y) as [row|] eqn:Hrow; [|discriminate].
  inversion H; subst b'. clear H.
  pose proof (index_In _ _ _ Hrow) as Hin.
  assert (List.length row = 8%nat) as Hr.
  { rewrite Forall_forall in Hrows. apply Hrows, Hin. }
  destruct (index_Some_range row x) as [c Hc]; [lia|].
  rewrite Hc in Hold. inversion Hold; subst old. clear Hold.
  rewrite (store_inside [] _ b y) by lia.
  rewrite (store_inside None v row x) by lia.
  unfold countPieces.
  pose proof (list_sum_map_replace countRow
                (firstn (Z.to_nat x) row ++ v :: skipn (S (Z.to_nat x)) row)
                [] b (Z.to_nat y)) as Hb.
  rewrite (index_nth b y row [] Hrow) in Hb.
  pose proof (list_sum_map_replace occupied v None row (Z.to_nat x)) as Hrw.
  rewrite (index_nth row x c None Hc) in Hrw.
  rewrite <- !occupied_sum in Hrw.
  specialize (Hb ltac:(lia)). specialize (Hrw ltac:(lia)). lia.
Qed.

Lemma selection_moves_onBoard (st : GameState) (sel sq : Square) :
  selectionConsistent st -> selectedPiece st = Some sel ->
  In sq (validMoves st) ->
  onBoard sq
  /\ exists piece, cell (board st) (fst sel) (snd sel) = Ret (Some piece)
                   /\ color piece = currentPlayer st
                   /\ isValidMove (board st) sel sq piece = Ret true.
Proof.
  unfold selectionConsistent. intros Hs Hsel Hin. rewrite Hsel in Hs.
  destruct Hs as [[piece [Hc Hclr]] Hm].
  rewrite (getValidMoves_filter _ _ piece _ Hc Hm) in Hin.
  apply filter_In in Hin. destruct Hin as [Hon Hl].
  apply scanOrder_onBoard in Hon. apply legalDestination_true in Hl.
  split; [exact Hon|]. exists piece. tauto.
Qed.

Lemma opponent_neq (c : PieceColor) : opponent c <> c.
Proof.
  destruct c; discriminate.
Qed.

Lemma opponent_white_iff (c : PieceColor) : opponent c = white <-> c <> white.
Proof.
  destruct c; simpl; split; intros H; try reflexivity; try discriminate.
  contradiction H; reflexivity.
Qed.

Lemma acceptedMove_keeps_invariant (st st' : GameState) (x y : Z) :
  sessionInvariant st -> acceptedMove st x y st' ->
  grid8 (board st') /\ selectionConsistent st'
  /\ (currentPlayer st' = white <->
      Nat.even (List.length (moveHistory st')) = true)
  /\ (countPieces (board st') + List.length (capturedPieces st') = 32)%nat
  /\ currentPlayer st' <> currentPlayer st.
Proof.
  intros [Hg [Hs [_ [Hpar Hcnt]]]] Hacc.
  destruct Hacc as [sel [moving [captured [b1 [b2 H]]]]].
  destruct H as [Hsel [Hne [Hin [Hm [Hcap [Hb1 [Hb2 ->]]]]]]].
  cbn [board currentPlayer selectedPiece validMoves gameStatus
       moveHistory capturedPieces].
  destruct (selection_moves_onBoard st sel (x, y) Hs Hsel Hin) as [Hon _].
  assert (onBoard sel) as Hsel_on.
  { destruct sel as [sx sy]. eapply grid8_cell_onBoard; eassumption. }
  pose proof (grid8_setCell _ _ _ _ _ Hg Hon Hb1) as Hg1.
  assert (grid8 b2) as Hg2.
  { destruct sel as [sx sy]. eapply grid8_setCell; eassumption. }
  split; [exact Hg2|]. split; [reflexivity|]. split; [|split].
  - rewrite opponent_white_iff, length_app, Nat.add_1_r, Nat.even_succ.
    rewrite Hpar, <- Nat.negb_even.
    destruct (Nat.even (List.length (moveHistory st))); simpl;
      split; intros H; try reflexivity; try discriminate.
    contradiction H; reflexivity.
  - pose proof (countPieces_setCell _ _ _ _ _ _ Hg Hon Hcap Hb1) as C1.
    assert (cell b1 (fst sel) (snd sel) = Ret (Some moving)) as Hm1.
    { rewrite (cell_setCell_other _ _ _ _ _ _ _ Hb1); [exact Hm|].
      destruct sel; exact Hne. }
    assert (onBoard (fst sel, snd sel)) as Hsel_on' by (destruct sel; exact Hsel_on).
    pose proof (countPieces_setCell _ _ _ _ _ _ Hg1 Hsel_on' Hm1 Hb2) as C2.
    unfold occupied in C1, C2. cbn [truthy] in C1, C2.
    destruct captured as [c|]; cbn [truthy] in C1;
      rewrite ?length_app; cbn [List.length]; lia.
  - apply opponent_neq.
Qed.

(** One transition of the click handler keeps the shape of the state. *)
Lemma handleSquareClick_keeps_invariant (st st' : GameState) (x y : Z) :
  sessionInvariant st -> handleSquareClick st x y = Ret st' ->
  grid8 (board st') /\ selectionConsistent st'
  /\ (currentPlayer st' = white <->
      Nat.even (List.length (moveHistory st')) = true)
  /\ (countPieces (board st') + List.length (capturedPieces st') = 32)%nat
  /\ (currentPlayer st' = currentPlayer st ->
      newStatus (board st') (currentPlayer st') = Ret (gameStatus st')).
Proof.
  intros Hinv H.
  pose proof Hinv as [Hg [Hs [Hst [Hpar Hcnt]]]].
  apply handleSquareClick_cases in H.
  destruct H as [-> | [-> | [[Hown H] | H]]].
  - tauto.
  - unfold selectionConsistent. simpl. intuition auto.
  - apply select_fields in H.
    destruct H as [Eb [Ep [Es [Ec [Eh [Esel Emoves]]]]]].
    unfold selectionConsistent.
    rewrite Eb, Ep, Es, Ec, Eh, Esel. cbn [fst snd].
    intuition eauto.
  - destruct (acceptedMove_keeps_invariant st st' x y Hinv H)
      as [H1 [H2 [H3 [H4 H5]]]].
    intuition auto.
Qed.

Lemma activateSquare_keeps_invariant (st st' : GameState) (sq : Square) :
  sessionInvariant st -> activateSquare st sq = Ret st' ->
  sessionInvariant st'.
Proof.
  intros Hinv H. unfold activateSquare in H.
  apply bind_Ret_inv in H. destruct H as [st1 [H1 H]].
  destruct (handleSquareClick_keeps_invariant st st1 _ _ Hinv H1)
    as [Hg [Hs [Hpar [Hcnt Hst]]]].
  destruct (PieceColor_eqb (currentPlayer st1) (currentPlayer st)) eqn:E.
  - apply PieceColor_eqb_eq in E. inversion H; subst st'.
    unfold sessionInvariant. intuition auto.
  - apply useEffect_status_fields in H.
    destruct H as [Eb [Ep [Esel [Ev [Ec [Eh Hnew]]]]]].
    unfold sessionInvariant, selectionConsistent in *.
    rewrite Eb, Ep, Esel, Ev, Ec, Eh. intuition auto.
Qed.

Lemma activateAll_keeps_invariant (clicks : list Square) :
  forall st st', sessionInvariant st ->
    activateAll st clicks = Ret st' -> sessionInvariant st'.
Proof.
  unfold activateAll.
  induction clicks as [|sq clicks IH]; simpl; intros st st' Hinv H.
  - inversion H; subst. exact Hinv.
  - apply bind_Ret_inv in H. destruct H as [st1 [H1 H]].
    eapply IH; [|exact H].
    eapply activateSquare_keeps_invariant; eassumption.
Qed.

Lemma initialState_invariant : sessionInvariant initialState.
Proof.
  unfold sessionInvariant. split.
  { split; [reflexivity|]. unfold initialState, initialBoard; simpl.
    repeat constructor. }
  split; [reflexivity|]. split; [reflexivity|].
  split; [simpl; tauto | reflexivity].
Qed.

Lemma reachable_invariant (st : GameState) :
  reachable st -> sessionInvariant st.
Proof.
  intros [clicks H].
  eapply activateAll_keeps_invariant; [apply initialState_invariant | exact H].
Qed.

(** X11. Turn order.  In every reachable state white is to move exactly
    when the move log holds an even number of entries: the players
    alternate strictly, one logged move each. *)
Theorem reachable_turn_parity (st : GameState) :
  reachable st ->
  (currentPlayer st = white <->
   Nat.even (List.length (moveHistory st)) = true).
Proof.
  intros H. apply reachable_invariant in H.
  destruct H as [_ [_ [_ [H _]]]]. exact H.
Qed.

Lemma reachable_turn_parity_witness :
  currentPlayer foolsMate = white <->
  Nat.even (List.length (moveHistory foolsMate)) = true.
Proof.
  apply (reachable_turn_parity foolsMate).
  exists [(5, 6); (5, 5); (4, 1); (4, 3); (6, 6); (6, 4); (3, 0); (7, 4)].
  vm_compute. reflexivity.
Defined.

(** X12. In every reachable state the board is still eight rows of eight
    cells: no move written by the handler lengthens a row or the board. *)
Theorem reachable_board_grid8 (st : GameState) :
  reachable st -> grid8 (board st).
Proof.
  intros H. apply reachable_invariant in H.
  destruct H as [H _]. exact H.
Qed.

Lemma reachable_board_grid8_witness : grid8 (board foolsMate).
Proof.
  apply (reachable_board_grid8 foolsMate).
  exists [(5, 6); (5, 5); (4, 1); (4, 3); (6, 6); (6, 4); (3, 0); (7, 4)].
  vm_compute. reflexivity.
Defined.

(** X13. In every reachable state the selection and [validMoves] agree:
    with no selection [validMoves] is empty; with a selection, the selected
    square holds a piece of the player to move and [validMoves] is what
    [getValidMoves] returns for it on the current board. *)
Theorem reachable_selection_consistent (st : GameState) :
  reachable st -> selectionConsistent st.
Proof.
  intros H. apply reachable_invariant in H.
  destruct H as [_ [H _]]. exact H.
Qed.

Lemma reachable_selection_consistent_witness :
  selectionConsistent
    (mkState initialBoard white (Some (1, 7)) [(0, 5); (2, 5)] playing [] []).
Proof.
  apply (reachable_selection_consistent
           (mkState initialBoard white (Some (1, 7)) [(0, 5); (2, 5)]
                    playing [] [])).
  exists [(1, 7)]. vm_compute. reflexivity.
Defined.

(** X14. In every reachable state the stored status is the one the status
    effect computes from the current board and player to move: it never
    lags behind the position. *)
Theorem reachable_status_current (st : GameState) :
  reachable st ->
  newStatus (board st) (currentPlayer st) = Ret (gameStatus st).
Proof.
  intros H. apply reachable_invariant in H.
  destruct H as [_ [_ [H _]]]. exact H.
Qed.

Lemma reachable_status_current_witness :
  newStatus (board foolsMate) (currentPlayer foolsMate)
  = Ret (gameStatus foolsMate).
Proof.
  apply (reachable_status_current foolsMate).
  exists [(5, 6); (5, 5); (4, 1); (4, 3); (6, 6); (6, 4); (3, 0); (7, 4)].
  vm_compute. reflexivity.
Defined.

(** X15. In every reachable state the pieces on the board and the captured
    pieces add up to 32: a move neither loses nor duplicates a piece. *)
Theorem reachable_piece_count (st : GameState) :
  reachable st ->
  (countPieces (board st) + List.length (capturedPieces st) = 32)%nat.
Proof.
  intros H. apply reachable_invariant in H.
  destruct H as [_ [_ [_ [_ H]]]]. exact H.
Qed.

Lemma reachable_piece_count_witness :
  (countPieces (board foolsMate) + List.length (capturedPieces foolsMate)
   = 32)%nat.
Proof.
  apply (reachable_piece_count foolsMate).
  exists [(5, 6); (5, 5); (4, 1); (4, 3); (6, 6); (6, 4); (3, 0); (7, 4)].
  vm_compute. reflexivity.
Defined.

(** ** Activations never fail on the board *)

Lemma grid8_hasRanks (b : Board) : grid8 b -> hasRanks b.
Proof.
  intros [H _]. unfold hasRanks. lia.
Qed.

Lemma select_total (st : GameState) (x y : Z) :
  hasRanks (board st) -> 0 <= y <= 7 -> exists st', select st x y = Ret st'.
Proof.
  intros Hr Hy. unfold select.
  destruct (getValidMoves_total (board st) (x, y) Hr) as [moves ->].
  - unfold hasRanks in Hr. simpl. lia.
  - cbn [bind]. eauto.
Qed.

Lemma reselect_total (st : GameState) (piece : option ChessPiece) (x y : Z) :
  hasRanks (board st) -> 0 <= y <= 7 ->
  exists st', reselect st piece x y = Ret st'.
Proof.
  intros Hr Hy. unfold reselect.
  destruct piece as [p|]; [|eauto].
  destruct (PieceColor_eqb (color p) (currentPlayer st)); [|eauto].
  apply select_total; assumption.
Qed.

Lemma handleSquareClick_total (st : GameState) (x y : Z) :
  sessionInvariant st -> 0 <= y <= 7 ->
  exists st', handleSquareClick st x y = Ret st'.
Proof.
  intros [Hg [Hs _]] Hy.
  pose proof (grid8_hasRanks _ Hg) as Hr.
  unfold handleSquareClick.
  destruct (GameStatus_eqb (gameStatus st) checkmate); [eauto|].
  destruct (cell_total_ranks (board st) x y Hr Hy) as [piece Hc].
  rewrite Hc. cbn [bind].
  unfold selectionConsistent in Hs.
  destruct (selectedPiece st) as [[selX selY]|].
  - destruct ((selX =? x) && (selY =? y)); [eauto|].
    match goal with
    | |- exists _, (if ?c then _ else _) = _ => destruct c
    end; [|apply reselect_total; assumption].
    destruct Hs as [[moving [Hm _]] _]. cbn [fst snd] in Hm.
    rewrite Hm. cbn [bind].
    destruct (setCell_total (board st) x y
                (Some (mkPiece (type moving) (color moving) (x, y)
                               (Some true) (id moving))))
      as [b1 [-> L1]]; [eapply cell_Ret_row; exact Hc|].
    cbn [bind].
    destruct (setCell_total b1 selX selY None) as [b2 [-> L2]].
    { apply cell_Ret_row in Hm. lia. }
    cbn [bind]. eauto.
  - destruct piece as [p|]; [|eauto].
    destruct (PieceColor_eqb (color p) (currentPlayer st)); [|eauto].
    apply select_total; assumption.
Qed.

Lemma useEffect_status_total (st : GameState) :
  hasRanks (board st) -> exists st', useEffect_status st = Ret st'.
Proof.
  intros Hr. unfold useEffect_status, newStatus.
  destruct (isInCheck_total (board st) (currentPlayer st) Hr) as [a ->].
  destruct (isCheckmate_total (board st) (currentPlayer st) Hr) as [b ->].
  cbn [bind].
  match goal with
  | |- exists _, (if ?c then _ else _) = _ => destruct c
  end; eauto.
Qed.

Lemma foldM_app {A S : Type} (f : S -> A -> outcome S) (l1 l2 : list A) :
  forall s, foldM f (l1 ++ l2) s = (s' <- foldM f l1 s ;; foldM f l2 s').
Proof.
  induction l1 as [|a l1 IH]; intros s; simpl; [reflexivity|].
  destruct (f s a) as [s1| |]; simpl; [apply IH | reflexivity | reflexivity].
Qed.

(** X16. In a reachable state an activation at any rank index 0..7
    completes normally, whatever the file index: no [TypeError] reaches the
    user from a click on the board, and the state reached is again
    reachable. *)
Theorem reachable_activation_total (st : GameState) (sq : Square) :
  reachable st -> 0 <= snd sq <= 7 ->
  exists st', activateSquare st sq = Ret st' /\ reachable st'.
Proof.
  intros Hreach Hy.
  pose proof (reachable_invariant st Hreach) as Hinv.
  destruct (handleSquareClick_total st (fst sq) (snd sq) Hinv Hy) as [st1 H1].
  assert (exists st', activateSquare st sq = Ret st') as [st' Hst'].
  { unfold activateSquare. rewrite H1. cbn [bind].
    destruct (PieceColor_eqb (currentPlayer st1) (currentPlayer st)); [eauto|].
    apply useEffect_status_total, grid8_hasRanks.
    destruct (handleSquareClick_keeps_invariant st st1 _ _ Hinv H1) as [Hg _].
    exact Hg. }
  exists st'. split; [exact Hst'|].
  destruct Hreach as [clicks Hc]. exists (clicks ++ [sq]).
  unfold activateAll in *. rewrite foldM_app, Hc. cbn [bind foldM].
  rewrite Hst'. reflexivity.
Qed.

Lemma reachable_activation_total_witness :
  exists st', activateSquare afterE4E5 (3, 7) = Ret st' /\ reachable st'.
Proof.
  apply (reachable_activation_total afterE4E5 (3, 7)).
  - exists [(4, 6); (4, 4); (4, 1); (4, 3)]. vm_compute. reflexivity.
  - simpl. lia.
Defined.

(** X17. In a reachable state, a piece that an activation adds to the
    captured pieces belongs to the player who was not to move: nobody
    captures a piece of their own. *)
Theorem reachable_capture_is_opponent
  (st st' : GameState) (x y : Z) (c : ChessPiece) :
  reachable st ->
  handleSquareClick st x y = Ret st' ->
  capturedPieces st' = capturedPieces st ++ [c] ->
  color c = opponent (currentPlayer st).
Proof.
  intros Hreach H Hcap.
  pose proof (reachable_invariant st Hreach) as [_ [Hs _]].
  assert (forall l : list ChessPiece, l <> l ++ [c]) as Hgrow.
  { intros l E. apply (f_equal (@List.length _)) in E.
    rewrite length_app in E. simpl in E. lia. }
  apply handleSquareClick_cases in H.
  destruct H as [-> | [-> | [[_ H] | H]]].
  - exfalso. exact (Hgrow _ Hcap).
  - exfalso. exact (Hgrow _ Hcap).
  - apply select_fields in H. destruct H as [_ [_ [_ [Ec _]]]].
    rewrite Ec in Hcap. exfalso. exact (Hgrow _ Hcap).
  - destruct H as [sel [moving [captured [b1 [b2 H]]]]].
    destruct H as [Hsel [Hne [Hin [Hm [Hc [_ [_ ->]]]]]]].
    cbn [capturedPieces] in Hcap.
    destruct captured as [c'|]; [|exfalso; exact (Hgrow _ Hcap)].
    apply app_inv_head in Hcap. inversion Hcap; subst c'. clear Hcap.
    destruct (selection_moves_onBoard st sel (x, y) Hs Hsel Hin)
      as [_ [piece [_ [Hclr Hv]]]].
    apply isValidMove_true_distinct_not_own_aux in Hv.
    destruct Hv as [_ [target [Ht Hown]]]. cbn [fst snd] in Ht.
    assert (target = Some c) by congruence. subst target.
    specialize (Hown c eq_refl). rewrite Hclr in Hown.
    destruct (color c), (currentPlayer st); simpl; try reflexivity;
      contradiction Hown; reflexivity.
Qed.

Lemma reachable_capture_is_opponent_witness :
  color (mkPiece pawn black (3, 3) (Some true) "bp4") = opponent white.
Proof.
  apply (reachable_capture_is_opponent beforeCapture
           (stateOr initialState (handleSquareClick beforeCapture 3 3)) 3 3
           (mkPiece pawn black (3, 3) (Some true) "bp4")).
  - exists [(4, 6); (4, 4); (3, 1); (3, 3); (4, 4)]. vm_compute. reflexivity.
  - vm_compute. reflexivity.
  - vm_compute. reflexivity.
Defined.

(** * Properties of the presentation helpers *)

Lemma mapIndexed_length {A B : Type} (f : A -> Z -> B) (arr : list A) :
  forall i, List.length (mapIndexed f arr i) = List.length arr.
Proof.
  induction arr as [|a arr IH]; intros i; simpl; [reflexivity|].
  now rewrite IH.
Qed.

Lemma mapIndexed_nth_error {A B : Type} (f : A -> Z -> B) (arr : list A) :
  forall (i : Z) (j : nat),
    nth_error (mapIndexed f arr i) j
    = option_map (fun a => f a (i + Z.of_nat j)) (nth_error arr j).
Proof.
  induction arr as [|a arr IH]; intros i j.
  - destruct j; reflexivity.
  - destruct j as [|j].
    + simpl. now rewrite Z.add_0_r.
    + cbn [mapIndexed nth_error]. rewrite IH.
      replace (i + 1 + Z.of_nat j) with (i + Z.of_nat (S j)) by lia.
      reflexivity.
Qed.

Lemma sliceLast_length {A : Type} (n : nat) (arr : list A) :
  List.length (sliceLast n arr) = Nat.min n (List.length arr).
Proof.
  unfold sliceLast. rewrite length_skipn. lia.
Qed.

(** X18. The move-history panel shows the last ten log entries, or all of
    them when there are fewer, in order; line [j] of the panel carries the
    number [j / 2 + 1], counted from the top of the panel and not from the
    start of the game, so the numbers shown never exceed 5. *)
Theorem moveHistoryLines_window (moveHistory : list string) :
  let shown := Nat.min 10 (List.length moveHistory) in
  List.length (moveHistoryLines moveHistory) = shown
  /\ forall j, (j < shown)%nat ->
       exists move,
         nth_error moveHistory (List.length moveHistory - shown + j) = Some move
         /\ nth_error (moveHistoryLines moveHistory) j
            = Some (showNumber (Z.of_nat j / 2 + 1) ++ ". " ++ move)%string
         /\ 1 <= Z.of_nat j / 2 + 1 <= 5.
Proof.
  intros shown. subst shown. unfold moveHistoryLines. split.
  - now rewrite mapIndexed_length, sliceLast_length.
  - intros j Hj. rewrite mapIndexed_nth_error.
    unfold sliceLast. rewrite nth_error_skipn.
    replace (List.length moveHistory - 10 + j)%nat
      with (List.length moveHistory
            - Nat.min 10 (List.length moveHistory) + j)%nat by lia.
    destruct (nth_error moveHistory
                (List.length moveHistory
                 - Nat.min 10 (List.length moveHistory) + j)) as [move|] eqn:E.
    + exists move. split; [reflexivity|]. split; [reflexivity|].
      assert (0 <= Z.of_nat j <= 9) as Hb by lia.
      pose proof (Z.div_pos (Z.of_nat j) 2) as Hp.
      assert (Z.of_nat j / 2 < 5) as Hq.
      { apply Z.div_lt_upper_bound; lia. }
      lia.
    + apply nth_error_None in E. lia.
Qed.

(** X19. The shade of the squares alternates: stepping one rank or one file
    flips [isLight], and the square of row 0, column 0 is light. *)
Theorem isLight_alternates (row col : Z) :
  isLight (row + 1) col = negb (isLight row col)
  /\ isLight row (col + 1) = negb (isLight row col)
  /\ isLight 0 0 = true.
Proof.
  assert (forall n, (Z.rem (n + 1) 2 =? 0) = negb (Z.rem n 2 =? 0)) as H.
  { intros n.
    pose proof (Z.quot_rem' n 2) as E1.
    pose proof (Z.quot_rem' (n + 1) 2) as E2.
    assert (-1 <= Z.rem n 2 <= 1) as B1.
    { pose proof (Z.rem_bound_abs n 2). lia. }
    assert (-1 <= Z.rem (n + 1) 2 <= 1) as B2.
    { pose proof (Z.rem_bound_abs (n + 1) 2). lia. }
    destruct (Z.rem (n + 1) 2 =? 0) eqn:Ea; destruct (Z.rem n 2 =? 0) eqn:Eb;
      try reflexivity;
      [apply Z.eqb_eq in Ea, Eb | apply Z.eqb_neq in Ea, Eb]; lia. }
  unfold isLight. split; [|split; [|reflexivity]].
  - replace (row + 1 + col) with (row + col + 1) by lia. apply H.
  - replace (row + (col + 1)) with (row + col + 1) by lia. apply H.
Qed.

(** * The notation determines the destination *)

Lemma append_inv_head (p a b : string) :
  (p ++ a)%string = (p ++ b)%string -> a = b.
Proof.
  induction p as [|c p IH]; simpl; intros H; [exact H|].
  inversion H. apply IH. assumption.
Qed.

Lemma spec_fileLetter_inj (x x' : Z) :
  0 <= x <= 7 -> 0 <= x' <= 7 ->
  spec_fileLetter x = spec_fileLetter x' -> x = x'.
Proof.
  intros Hx Hx'.
  assert (x = 0 \/ x = 1 \/ x = 2 \/ x = 3 \/ x = 4 \/ x = 5 \/ x = 6 \/ x = 7)
    as D by lia.
  assert (x' = 0 \/ x' = 1 \/ x' = 2 \/ x' = 3 \/ x' = 4 \/ x' = 5 \/ x' = 6
          \/ x' = 7) as D' by lia.
  repeat (destruct D as [-> | D]); try subst x;
    repeat (destruct D' as [-> | D']); try subst x';
    vm_compute; intros H; try reflexivity; discriminate H.
Qed.

Lemma rank_digit (y : Z) :
  0 <= y <= 7 -> exists d, showNumber (8 - y) = String d EmptyString.
Proof.
  intros Hy.
  assert (y = 0 \/ y = 1 \/ y = 2 \/ y = 3 \/ y = 4 \/ y = 5 \/ y = 6 \/ y = 7)
    as D by lia.
  repeat (destruct D as [-> | D]); try subst y; eexists; reflexivity.
Qed.

Lemma rank_digit_inj (y y' : Z) :
  0 <= y <= 7 -> 0 <= y' <= 7 ->
  showNumber (8 - y) = showNumber (8 - y') -> y = y'.
Proof.
  intros Hy Hy'.
  assert (y = 0 \/ y = 1 \/ y = 2 \/ y = 3 \/ y = 4 \/ y = 5 \/ y = 6 \/ y = 7)
    as D by lia.
  assert (y' = 0 \/ y' = 1 \/ y' = 2 \/ y' = 3 \/ y' = 4 \/ y' = 5 \/ y' = 6
          \/ y' = 7) as D' by lia.
  repeat (destruct D as [-> | D]); try subst y;
    repeat (destruct D' as [-> | D']); try subst y';
    vm_compute; intros H; try reflexivity; discriminate H.
Qed.

(** X20. For one piece and destinations on the board, the text
    [formatMove] produces determines the destination square and whether the
    move captured: two moves of the same piece with the same text go to the
    same square, both with or both without a capture.  (The origin and the
    identity of the piece are not recoverable.) *)
Theorem formatMove_determines_destination
  (from from' to to' : Square) (piece : ChessPiece)
  (captured captured' : option ChessPiece) :
  onBoard to -> onBoard to' ->
  formatMove from to piece captured = formatMove from' to' piece captured' ->
  to = to' /\ truthy captured = truthy captured'.
Proof.
  intros [Hx Hy] [Hx' Hy'] H.
  unfold formatMove in H.
  rewrite pieceSymbol_table, (files_letter _ Hx), (files_letter _ Hx') in H.
  apply append_inv_head in H.
  destruct to as [x y], to' as [x' y']. cbn [fst snd] in *.
  destruct (rank_digit y Hy) as [d Hd].
  destruct (rank_digit y' Hy') as [d' Hd'].
  assert (forall f, exists L, spec_fileLetter f = String L EmptyString) as HL
    by (intros f; unfold spec_fileLetter; eexists; reflexivity).
  destruct (HL x) as [L EL]. destruct (HL x') as [L' EL'].
  unfold spec_squareName in H. cbn [fst snd] in H.
  assert (L = L' -> d = d' -> (x, y) = (x', y')) as Hsame.
  { intros -> ->. f_equal.
    - apply spec_fileLetter_inj; try assumption. congruence.
    - apply rank_digit_inj; try assumption. congruence. }
  rewrite EL, EL', Hd, Hd' in H.
  destruct (truthy captured), (truthy captured'); cbn [append] in H;
    inversion H; subst; split; try reflexivity; apply Hsame; reflexivity.
Qed.

Lemma formatMove_determines_destination_witness :
  ((0, 3) : Square) = (0, 3) /\ truthy (@None ChessPiece) = truthy None.
Proof.
  apply (formatMove_determines_destination (0, 7) (0, 0) (0, 3) (0, 3)
           (mkPiece rook white (0, 7) None "wr1") None None).
  - unfold onBoard; simpl; lia.
  - unfold onBoard; simpl; lia.
  - reflexivity.
Defined.

(** * The rules read only the type and color of the pieces *)

Lemma truthy_sameKind (c c' : option ChessPiece) :
  sameKind c c' -> truthy c = truthy c'.
Proof.
  destruct c, c'; simpl; intros H; try reflexivity; contradiction.
Qed.

Lemma isKingOf_sameKind (clr : PieceColor) (c c' : option ChessPiece) :
  sameKind c c' -> isKingOf clr c = isKingOf clr c'.
Proof.
  destruct c as [p|], c' as [p'|]; simpl; intros H; try reflexivity;
    try contradiction.
  destruct H as [-> ->]. reflexivity.
Qed.

Lemma cellsAlike_refl (b : Board) : cellsAlike b b.
Proof.
  intros x y. pose proof (cell_not_Diverge b x y) as Hnd.
  destruct (cell b x y) as [c| |] eqn:E.
  - right. exists c, c. repeat split.
    destruct c as [p|]; simpl; auto.
  - left. split; reflexivity.
  - contradiction Hnd; reflexivity.
Qed.

Lemma findM_ext {A B : Type} (f g : A -> outcome (option B)) (l : list A) :
  (forall a, f a = g a) -> findM f l = findM g l.
Proof.
  intros H. induction l as [|a l IH]; simpl; [reflexivity|].
  now rewrite H, IH.
Qed.

Lemma anyM_ext {A : Type} (f g : A -> outcome bool) (l : list A) :
  (forall a, f a = g a) -> anyM f l = anyM g l.
Proof.
  intros H. induction l as [|a l IH]; simpl; [reflexivity|].
  now rewrite H, IH.
Qed.

Lemma foldM_ext {A S : Type} (f g : S -> A -> outcome S) (l : list A) :
  (forall s a, f s a = g s a) -> forall s, foldM f l s = foldM g l s.
Proof.
  intros H. induction l as [|a l IH]; intros s; simpl; [reflexivity|].
  rewrite H. destruct (g s a); simpl; [apply IH | reflexivity | reflexivity].
Qed.

Lemma isPathClear_loop_alike (b b' : Board) (dx dy toX toY : Z) :
  cellsAlike b b' ->
  forall fuel x y,
    isPathClear_loop fuel b x y dx dy toX toY
    = isPathClear_loop fuel b' x y dx dy toX toY.
Proof.
  intros Ha. induction fuel as [|fuel IH]; intros x y; [reflexivity|].
  rewrite !isPathClear_loop_S.
  destruct (negb (x =? toX) || negb (y =? toY)); [|reflexivity].
  destruct (Ha x y) as [[-> ->] | [c [c' [-> [-> Hk]]]]]; [reflexivity|].
  cbn [bind]. rewrite (truthy_sameKind _ _ Hk).
  destruct (truthy c'); [reflexivity | apply IH].
Qed.

Lemma isValidMove_alike (b b' : Board) (from to : Square) (p p' : ChessPiece) :
  cellsAlike b b' -> type p = type p' -> color p = color p' ->
  isValidMove b from to p = isValidMove b' from to p'.
Proof.
  intros Ha Hty Hcl. unfold isValidMove, isValidMove_with.
  destruct from as [fx fy], to as [tx ty].
  destruct (Ha tx ty) as [[-> ->] | [c [c' [-> [-> Hk]]]]]; [reflexivity|].
  cbn [bind]. rewrite (truthy_sameKind _ _ Hk), Hty, Hcl.
  assert (match c with
          | Some t => PieceColor_eqb (color t) (color p')
          | None => false
          end
          = match c' with
            | Some t => PieceColor_eqb (color t) (color p')
            | None => false
            end) as ->.
  { destruct c as [t|], c' as [t'|]; simpl in Hk; try reflexivity;
      try contradiction.
    destruct Hk as [_ ->]. reflexivity. }
  unfold isPathClear.
  rewrite (isPathClear_loop_alike b b' _ _ tx ty Ha). reflexivity.
Qed.

Lemma findKing_alike (b b' : Board) (clr : PieceColor) :
  cellsAlike b b' -> findKing b clr = findKing b' clr.
Proof.
  intros Ha. unfold findKing.
  apply findM_ext. intros y. apply findM_ext. intros x.
  destruct (Ha x y) as [[-> ->] | [c [c' [-> [-> Hk]]]]]; [reflexivity|].
  cbn [bind]. now rewrite (isKingOf_sameKind clr _ _ Hk).
Qed.

Lemma isInCheck_alike (b b' : Board) (clr : PieceColor) :
  cellsAlike b b' -> isInCheck b clr = isInCheck b' clr.
Proof.
  intros Ha. unfold isInCheck. rewrite (findKing_alike b b' clr Ha).
  destruct (findKing b' clr) as [[kingPos|]| |]; cbn [bind];
    [|reflexivity|reflexivity|reflexivity].
  apply anyM_ext. intros y. apply anyM_ext. intros x.
  destruct (Ha x y) as [[-> ->] | [c [c' [-> [-> Hk]]]]]; [reflexivity|].
  cbn [bind].
  destruct c as [p|], c' as [p'|]; cbn [sameKind] in Hk;
    [|contradiction|contradiction|reflexivity].
  destruct Hk as [Hty Hcl]. rewrite Hcl.
  destruct (PieceColor_eqb (color p') (opponent clr)); [|reflexivity].
  apply isValidMove_alike; assumption.
Qed.

Lemma setCell_TypeError_iff (b : Board) (x y : Z) (v : option ChessPiece) :
  setCell b x y v = TypeError <-> cell b x y = TypeError.
Proof.
  unfold setCell, cell. destruct (index b y) as [row|].
  - destruct (index row x); split; discriminate.
  - split; reflexivity.
Qed.

Lemma cell_setCell_negative (b n : Board) (x y x' y' : Z)
  (v : option ChessPiece) :
  x < 0 -> setCell b x y v = Ret n -> cell n x' y' = cell b x' y'.
Proof.
  intros Hx H. unfold setCell in H.
  destruct (index b y) as [row|] eqn:Hrow; [|discriminate].
  inversion H; subst n. clear H.
  pose proof (index_Some_inside _ _ _ Hrow) as Hy.
  assert (store None row x v = row) as ->.
  { unfold store. destruct (x <? 0) eqn:E; [reflexivity|].
    apply Z.ltb_ge in E. lia. }
  destruct (Z.eq_dec y' y) as [->|Hne].
  - unfold cell. now rewrite index_store_same, Hrow by lia.
  - unfold cell. now rewrite index_store_other_inside.
Qed.

Lemma setCell_alike (b b' : Board) (x y : Z) (v v' : option ChessPiece) :
  cellsAlike b b' -> sameKind v v' ->
  (setCell b x y v = TypeError /\ setCell b' x y v' = TypeError)
  \/ (exists n n', setCell b x y v = Ret n /\ setCell b' x y v' = Ret n'
                   /\ cellsAlike n n').
Proof.
  intros Ha Hk.
  destruct (Ha x y) as [[E E'] | [c [c' [E [E' _]]]]].
  - left. split; apply setCell_TypeError_iff; assumption.
  - right.
    destruct (setCell_total b x y v) as [n [Hn _]];
      [eapply cell_Ret_row; exact E|].
    destruct (setCell_total b' x y v') as [n' [Hn' _]];
      [eapply cell_Ret_row; exact E'|].
    exists n, n'. split; [exact Hn|]. split; [exact Hn'|].
    intros x' y'.
    destruct (Z.lt_ge_cases x 0) as [Hneg|Hpos].
    + rewrite (cell_setCell_negative b n x y x' y' v Hneg Hn).
      rewrite (cell_setCell_negative b' n' x y x' y' v' Hneg Hn').
      apply Ha.
    + destruct (Z.eq_dec x' x) as [->|Hx'];
        [destruct (Z.eq_dec y' y) as [->|Hy']|].
      * right. exists v, v'.
        rewrite (cell_setCell_same b n x y v Hn Hpos).
        rewrite (cell_setCell_same b' n' x y v' Hn' Hpos).
        repeat split. exact Hk.
      * rewrite (cell_setCell_other b n x y x y' v Hn)
          by (intros E0; inversion E0; contradiction).
        rewrite (cell_setCell_other b' n' x y x y' v' Hn')
          by (intros E0; inversion E0; contradiction).
        apply Ha.
      * rewrite (cell_setCell_other b n x y x' y' v Hn)
          by (intros E0; inversion E0; contradiction).
        rewrite (cell_setCell_other b' n' x y x' y' v' Hn')
          by (intros E0; inversion E0; contradiction).
        apply Ha.
Qed.

Lemma wouldBeInCheck_alike (b b' : Board) (from to : Square)
  (clr : PieceColor) :
  cellsAlike b b' ->
  wouldBeInCheck b from to clr = wouldBeInCheck b' from to clr.
Proof.
  intros Ha. unfold wouldBeInCheck.
  destruct (Ha (fst from) (snd from)) as [[-> ->] | [c [c' [-> [-> Hk]]]]];
    [reflexivity|].
  cbn [bind].
  destruct (setCell_alike b b' (fst to) (snd to) c c' Ha Hk)
    as [[-> ->] | [n [n' [-> [-> Hn]]]]]; [reflexivity|].
  cbn [bind].
  destruct (setCell_alike n n' (fst from) (snd from) None None Hn I)
    as [[-> ->] | [m [m' [-> [-> Hm]]]]]; [reflexivity|].
  cbn [bind]. apply isInCheck_alike. exact Hm.
Qed.

Lemma getValidMoves_alike (b b' : Board) (position : Square) :
  cellsAlike b b' -> getValidMoves b position = getValidMoves b' position.
Proof.
  intros Ha. unfold getValidMoves.
  destruct (Ha (fst position) (snd position))
    as [[-> ->] | [c [c' [-> [-> Hk]]]]]; [reflexivity|].
  cbn [bind].
  destruct c as [p|], c' as [p'|]; cbn [sameKind] in Hk;
    [|contradiction|contradiction|reflexivity].
  destruct Hk as [Hty Hcl].
  apply foldM_ext. intros acc x. apply foldM_ext. intros acc' y.
  rewrite (isValidMove_alike b b' position (x, y) p p' Ha Hty Hcl).
  rewrite (wouldBeInCheck_alike b b' position (x, y) (color p) Ha), Hcl.
  reflexivity.
Qed.

Lemma isCheckmate_alike (b b' : Board) (clr : PieceColor) :
  cellsAlike b b' -> isCheckmate b clr = isCheckmate b' clr.
Proof.
  intros Ha. unfold isCheckmate. rewrite (isInCheck_alike b b' clr Ha).
  destruct (isInCheck b' clr) as [[|]| |]; cbn [bind negb];
    [|reflexivity|reflexivity|reflexivity].
  match goal with
  | |- bind ?m _ = bind ?m' _ => assert (m = m') as ->; [|reflexivity]
  end.
  apply anyM_ext. intros y. apply anyM_ext. intros x.
  destruct (Ha x y) as [[-> ->] | [c [c' [-> [-> Hk]]]]]; [reflexivity|].
  cbn [bind].
  destruct c as [p|], c' as [p'|]; cbn [sameKind] in Hk;
    [|contradiction|contradiction|reflexivity].
  destruct Hk as [_ Hcl]. rewrite Hcl.
  now rewrite (getValidMoves_alike b b' (x, y) Ha).
Qed.

(** X21. The rules consult a piece's type and color only.  On two boards
    whose cells are pairwise of the same kind (empty, or pieces of one type
    and color, whatever their [position], [hasMoved] and [id]) the move
    evaluator, the check and checkmate detectors, the legal-move generator
    and the status computation give identical answers. *)
Theorem rules_read_type_and_color_only (b b' : Board) :
  cellsAlike b b' ->
  (forall from to p p', type p = type p' -> color p = color p' ->
     isValidMove b from to p = isValidMove b' from to p')
  /\ (forall clr, isInCheck b clr = isInCheck b' clr)
  /\ (forall position, getValidMoves b position = getValidMoves b' position)
  /\ (forall clr, isCheckmate b clr = isCheckmate b' clr)
  /\ (forall clr, newStatus b clr = newStatus b' clr).
Proof.
  intros Ha. split; [|split; [|split; [|split]]].
  - intros from to p p'. apply isValidMove_alike. exact Ha.
  - intros clr. apply isInCheck_alike. exact Ha.
  - intros position. apply getValidMoves_alike. exact Ha.
  - intros clr. apply isCheckmate_alike. exact Ha.
  - intros clr. unfold newStatus.
    now rewrite (isInCheck_alike b b' clr Ha), (isCheckmate_alike b b' clr Ha).
Qed.

Lemma nth_error_Forall2 {A : Type} (R : A -> A -> Prop) (l l' : list A) :
  Forall2 R l l' ->
  forall n,
    (nth_error l n = None /\ nth_error l' n = None)
    \/ (exists a a', nth_error l n = Some a /\ nth_error l' n = Some a'
                     /\ R a a').
Proof.
  induction 1 as [|a a' l l' Ha Hl IH]; intros n.
  - left. destruct n; split; reflexivity.
  - destruct n as [|n]; simpl; [right; eauto | apply IH].
Qed.

(** Boards whose rows match cell by cell read alike. *)
Lemma cellsAlike_rows (b b' : Board) :
  Forall2 (Forall2 sameKind) b b' -> cellsAlike b b'.
Proof.
  intros H x y. unfold cell, index.
  destruct (y <? 0); [left; split; reflexivity|].
  destruct (nth_error_Forall2 _ b b' H (Z.to_nat y))
    as [[-> ->] | [row [row' [-> [-> Hrow]]]]]; [left; split; reflexivity|].
  right. destruct (x <? 0).
  - exists None, None. repeat split.
  - destruct (nth_error_Forall2 _ row row' Hrow (Z.to_nat x))
      as [[-> ->] | [c [c' [-> [-> Hc]]]]].
    + exists None, None. repeat split.
    + exists c, c'. repeat split. exact Hc.
Qed.

Lemma rules_read_type_and_color_only_witness :
  cell (board afterE4E5) 4 4 <> cell plainE4E5 4 4
  /\ getValidMoves (board afterE4E5) (3, 7) = getValidMoves plainE4E5 (3, 7).
Proof.
  split; [vm_compute; intros H; discriminate H|].
  assert (cellsAlike (board afterE4E5) plainE4E5) as Ha.
  { apply cellsAlike_rows. unfold afterE4E5, plainE4E5, board.
    repeat (constructor; [repeat (constructor; [simpl; auto|])|]).
    all: constructor. }
  destruct (rules_read_type_and_color_only (board afterE4E5) plainE4E5 Ha)
    as [_ [_ [H _]]].
  apply H.
Defined.

(** ** A move never leaves the mover in check *)

Lemma selection_move_safe (st : GameState) (sel sq : Square)
  (moving : ChessPiece) :
  selectionConsistent st -> selectedPiece st = Some sel ->
  In sq (validMoves st) ->
  cell (board st) (fst sel) (snd sel) = Ret (Some moving) ->
  onBoard sq /\ color moving = currentPlayer st
  /\ wouldBeInCheck (board st) sel sq (currentPlayer st) = Ret false.
Proof.
  unfold selectionConsistent. intros Hs Hsel Hin Hm. rewrite Hsel in Hs.
  destruct Hs as [[piece [Hc Hclr]] Hmoves].
  assert (piece = moving) by congruence. subst piece.
  rewrite (getValidMoves_filter _ _ moving _ Hc Hmoves) in Hin.
  apply filter_In in Hin. destruct Hin as [Hon Hl].
  apply scanOrder_onBoard in Hon. apply legalDestination_true in Hl.
  rewrite Hclr in Hl. tauto.
Qed.

(** X22. In a reachable state, after an accepted move the player who
    moved is not in check on the new board: the self-check filter of
    [getValidMoves], applied on the hypothetical board, carries over to the
    board the handler actually builds (whose moved piece has a new
    [position] and [hasMoved]). *)
Theorem reachable_move_leaves_mover_safe (st st' : GameState) (x y : Z) :
  reachable st ->
  handleSquareClick st x y = Ret st' ->
  currentPlayer st' <> currentPlayer st ->
  isInCheck (board st') (currentPlayer st) = Ret false.
Proof.
  intros Hreach H Hflip.
  pose proof (reachable_invariant st Hreach) as [_ [Hs _]].
  apply handleSquareClick_cases in H.
  destruct H as [-> | [-> | [[_ H] | H]]].
  - contradiction Hflip; reflexivity.
  - contradiction Hflip; reflexivity.
  - apply select_fields in H. destruct H as [_ [E _]]. contradiction.
  - destruct H as [sel [moving [captured [b1 [b2 H]]]]].
    destruct H as [Hsel [Hne [Hin [Hm [Hc [Hb1 [Hb2 ->]]]]]]].
    cbn [board].
    destruct (selection_move_safe st sel (x, y) moving Hs Hsel Hin Hm)
      as [_ [Hclr Hsafe]].
    unfold wouldBeInCheck in Hsafe. cbn [fst snd] in Hsafe.
    rewrite Hm in Hsafe. cbn [bind] in Hsafe.
    destruct (setCell_alike (board st) (board st) x y
                (Some (movedPiece moving x y)) (Some moving)
                (cellsAlike_refl _))
      as [[E _] | [n [n' [En [En' Hn]]]]];
      [simpl; split; reflexivity | congruence |].
    assert (n = b1) by congruence. subst n.
    rewrite En' in Hsafe. cbn [bind] in Hsafe.
    destruct (setCell_alike b1 n' (fst sel) (snd sel) None None Hn I)
      as [[E _] | [m [m' [Em [Em' Hm']]]]]; [congruence|].
    assert (m = b2) by congruence. subst m.
    rewrite Em' in Hsafe. cbn [bind] in Hsafe.
    rewrite (isInCheck_alike b2 m' (currentPlayer st) Hm'). exact Hsafe.
Qed.

Lemma reachable_move_leaves_mover_safe_witness :
  isInCheck (board (stateOr initialState (handleSquareClick beforeCapture 3 3)))
            white = Ret false.
Proof.
  apply (reachable_move_leaves_mover_safe beforeCapture
           (stateOr initialState (handleSquareClick beforeCapture 3 3)) 3 3).
  - exists [(4, 6); (4, 4); (3, 1); (3, 3); (4, 4)]. vm_compute. reflexivity.
  - vm_compute. reflexivity.
  - vm_compute. intros H; discriminate H.
Defined.

(** ** Selecting and deselecting *)

(** X23. Selecting a piece and activating its square again is a round
    trip: from a state with nothing selected (and so no listed moves), two
    activations of a square holding a piece of the player to move return the
    state unchanged, the first having selected the square with the moves
    [getValidMoves] gives. *)
Theorem select_then_deselect (st st1 : GameState) (x y : Z) (p : ChessPiece) :
  gameStatus st <> checkmate ->
  selectedPiece st = None -> validMoves st = [] ->
  cell (board st) x y = Ret (Some p) -> color p = currentPlayer st ->
  handleSquareClick st x y = Ret st1 ->
  selectedPiece st1 = Some (x, y)
  /\ getValidMoves (board st) (x, y) = Ret (validMoves st1)
  /\ handleSquareClick st1 x y = Ret st.
Proof.
  intros Hstat Hsel Hv Hc Hclr H.
  assert (GameStatus_eqb (gameStatus st) checkmate = false) as Hs.
  { destruct (GameStatus_eqb (gameStatus st) checkmate) eqn:E; [|reflexivity].
    apply GameStatus_eqb_eq in E. contradiction. }
  unfold handleSquareClick in H. rewrite Hs, Hc in H. cbn [bind] in H.
  rewrite Hsel, Hclr, PieceColor_eqb_refl in H.
  pose proof (select_fields st st1 x y H) as [Eb [Ep [Es [Ec [Eh [Esel Em]]]]]].
  split; [exact Esel|]. split; [exact Em|].
  unfold handleSquareClick. rewrite Es, Hs, Eb, Hc. cbn [bind].
  rewrite Esel, !Z.eqb_refl. cbn [andb].
  unfold deselect. rewrite Eb, Ep, Es, Ec, Eh.
  destruct st; simpl in *. subst. reflexivity.
Qed.

Lemma select_then_deselect_witness :
  handleSquareClick
    (mkState initialBoard white (Some (1, 7)) [(0, 5); (2, 5)] playing [] [])
    1 7 = Ret initialState.
Proof.
  destruct (select_then_deselect initialState
              (mkState initialBoard white (Some (1, 7)) [(0, 5); (2, 5)]
                       playing [] [])
              1 7 (mkPiece knight white (1, 7) None "wn1"))
    as [_ [_ H]].
  - discriminate.
  - reflexivity.
  - reflexivity.
  - reflexivity.
  - reflexivity.
  - vm_compute. reflexivity.
  - exact H.
Defined.

Lemma moveHistoryLines_window_witness :
  nth_error
    (moveHistoryLines
       ["e4"; "e5"; "Kf3"; "Kc6"; "Bb5"; "a6"; "Ba4"; "Kf6"; "d3"; "d6";
        "c3"; "Be7"]%string) 0
  = Some "1. Kf3"%string.
Proof.
  destruct (moveHistoryLines_window
              ["e4"; "e5"; "Kf3"; "Kc6"; "Bb5"; "a6"; "Ba4"; "Kf6"; "d3"; "d6";
               "c3"; "Be7"]%string) as [_ H].
  destruct (H 0%nat) as [move [Hm [Hl _]]]; [simpl; lia|].
  simpl in Hm. inversion Hm; subst move. exact Hl.
Defined.
